(** * JobStalker: the cache and resource-coordination layer

    A shallow embedding of [job_stalker/cache.py] ([CacheEntry],
    [LRUCache], [AIResponseCache], [cached_ai_call]), of
    [DatabasePool.initialize] / [DatabasePool.acquire] from
    [job_stalker/database.py], and of the improvement-task registry of
    [AppState] in [job_stalker/state.py].

    Conventions:
    - a Python [str] is a list of Unicode code points ([list Z]);
      [bytes] are lists of integers in [0, 255];
    - [time.time()] is an integer clock reading passed explicitly to
      every operation that reads it;
    - an operation that raises returns [None]. *)

From Stdlib Require Import String Ascii.
From Stdlib Require Import ZArith List Lia Bool QArith Permutation.
Import ListNotations.
Open Scope Z_scope.
Open Scope list_scope.

(* ================================================================== *)
(** ** Python strings, slicing and [str.encode()] *)

Definition pystr := list Z.

(** ASCII literal to Python [str]. *)
Definition py (s : string) : pystr :=
  map (fun c => Z.of_nat (nat_of_ascii c)) (list_ascii_of_string s).

(** [s[:n]] for a non-negative literal [n]. *)
Definition py_prefix (n : nat) (s : pystr) : pystr := firstn n s.

Definition key_eqb (a b : pystr) : bool :=
  if list_eq_dec Z.eq_dec a b then true else false.

(** UTF-8 encoding of one code point, [errors="strict"]: a lone
    surrogate raises [UnicodeEncodeError]. *)
Definition utf8_char (c : Z) : option (list Z) :=
  if c <? 0 then None
  else if c <? 128 then Some [c]
  else if c <? 2048 then
    Some [192 + Z.shiftr c 6; 128 + Z.land c 63]
  else if (55296 <=? c) && (c <=? 57343) then None
  else if c <? 65536 then
    Some [224 + Z.shiftr c 12; 128 + Z.land (Z.shiftr c 6) 63;
          128 + Z.land c 63]
  else if c <? 1114112 then
    Some [240 + Z.shiftr c 18; 128 + Z.land (Z.shiftr c 12) 63;
          128 + Z.land (Z.shiftr c 6) 63; 128 + Z.land c 63]
  else None.

(** [s.encode()] *)
Fixpoint encode (s : pystr) : option (list Z) :=
  match s with
  | [] => Some []
  | c :: s' =>
      match utf8_char c, encode s' with
      | Some b, Some bs => Some (b ++ bs)
      | _, _ => None
      end
  end.

(* ================================================================== *)
(** ** Python [float]: [int / int], [float * int] and [format(x, ".1f")] *)

(** A Python [float] that is not a NaN and not negative: the finite
    binary64 number [m * 2 ^ e], or [inf]. *)
Inductive pyfloat :=
| PFinite (m e : Z)
| PInf.

(** [n / d] for [n >= 0] and [d > 0], rounded to the nearest integer,
    ties to even. *)
Definition round_half_even (n d : Z) : Z :=
  let q := n / d in
  let r := n mod d in
  if 2 * r <? d then q
  else if d <? 2 * r then q + 1
  else if Z.even q then q else q + 1.

(** [(n / d) / 2 ^ e] as a fraction of two integers. *)
Definition scale (n d e : Z) : Z * Z :=
  if e <? 0 then (n * 2 ^ (- e), d) else (n, d * 2 ^ e).

(** The binary64 number nearest to [n / d] ([n >= 0], [d > 0]), ties to
    even, as IEEE 754 rounds: 53 significant bits, the subnormal range
    down to [2 ^ -1074], and [PInf] from [2 ^ 1024] on. *)
Definition round_binary64 (n d : Z) : pyfloat :=
  if n =? 0 then PFinite 0 0 else
  let e0 := Z.log2 n - Z.log2 d - 52 in
  let e1 := let (a, b) := scale n d e0 in
            if a / b <? 2 ^ 52 then e0 - 1 else e0 in
  let e := Z.max e1 (-1074) in
  let (a, b) := scale n d e in
  let m := round_half_even a b in
  if 1024 <=? Z.log2 m + e then PInf else PFinite m e.

(** [a / b] on Python [int]s with [a >= 0]: the correctly rounded
    quotient; [ZeroDivisionError] for [b = 0] and [OverflowError] when the
    quotient does not fit a float are [None]. *)
Definition int_truediv (a b : Z) : option pyfloat :=
  if b <=? 0 then None
  else match round_binary64 a b with
       | PInf => None
       | x => Some x
       end.

(** [x * k] for a [float] [x] and an [int] [k > 0] ([k] is converted to
    [float] exactly); overflow gives [inf]. *)
Definition float_mul_int (x : pyfloat) (k : Z) : pyfloat :=
  match x with
  | PInf => PInf
  | PFinite m e => let (n, d) := scale (m * k) 1 (- e) in round_binary64 n d
  end.

(** Decimal digits of a [Decimal.uint]. *)
Fixpoint uint_digits (u : Decimal.uint) : pystr :=
  match u with
  | Decimal.Nil => []
  | Decimal.D0 u => 48 :: uint_digits u
  | Decimal.D1 u => 49 :: uint_digits u
  | Decimal.D2 u => 50 :: uint_digits u
  | Decimal.D3 u => 51 :: uint_digits u
  | Decimal.D4 u => 52 :: uint_digits u
  | Decimal.D5 u => 53 :: uint_digits u
  | Decimal.D6 u => 54 :: uint_digits u
  | Decimal.D7 u => 55 :: uint_digits u
  | Decimal.D8 u => 56 :: uint_digits u
  | Decimal.D9 u => 57 :: uint_digits u
  end.

(** [str(n)] for an [int] [n >= 0]. *)
Definition str_of_nonneg (n : Z) : pystr := uint_digits (N.to_uint (Z.to_N n)).

(** [format(x, ".1f")]: the exact value of [x] rounded to one decimal,
    ties to even; [inf] prints as ["inf"]. *)
Definition format_1f (x : pyfloat) : pystr :=
  match x with
  | PInf => py "inf"
  | PFinite m e =>
      let y := round_half_even (m * 10 * 2 ^ Z.max e 0) (2 ^ Z.max (- e) 0) in
      str_of_nonneg (y / 10) ++ py "." ++ str_of_nonneg (y mod 10)
  end.

(* ================================================================== *)
(** ** [hashlib.md5(...).hexdigest()] (RFC 1321) *)

Module MD5.

Definition mask32 (x : Z) : Z := Z.land x 4294967295.
Definition add32 (a b : Z) : Z := mask32 (a + b).
Definition not32 (x : Z) : Z := Z.lxor x 4294967295.
Definition rotl32 (x s : Z) : Z :=
  mask32 (Z.lor (Z.shiftl x s) (Z.shiftr x (32 - s))).

Definition K : list Z :=
  [3614090360; 3905402710; 606105819; 3250441966; 4118548399; 1200080426;
   2821735955; 4249261313; 1770035416; 2336552879; 4294925233; 2304563134;
   1804603682; 4254626195; 2792965006; 1236535329; 4129170786; 3225465664;
   643717713; 3921069994; 3593408605; 38016083; 3634488961; 3889429448;
   568446438; 3275163606; 4107603335; 1163531501; 2850285829; 4243563512;
   1735328473; 2368359562; 4294588738; 2272392833; 1839030562; 4259657740;
   2763975236; 1272893353; 4139469664; 3200236656; 681279174; 3936430074;
   3572445317; 76029189; 3654602809; 3873151461; 530742520; 3299628645;
   4096336452; 1126891415; 2878612391; 4237533241; 1700485571; 2399980690;
   4293915773; 2240044497; 1873313359; 4264355552; 2734768916; 1309151649;
   4149444226; 3174756917; 718787259; 3951481745].

Definition S : list Z :=
  [7;12;17;22; 7;12;17;22; 7;12;17;22; 7;12;17;22;
   5;9;14;20; 5;9;14;20; 5;9;14;20; 5;9;14;20;
   4;11;16;23; 4;11;16;23; 4;11;16;23; 4;11;16;23;
   6;10;15;21; 6;10;15;21; 6;10;15;21; 6;10;15;21].

Definition round (M : list Z) (h : Z * Z * Z * Z) (i : nat) : Z * Z * Z * Z :=
  let '(a, b, c, d) := h in
  let '(f, g) :=
    if (i <? 16)%nat then (Z.lor (Z.land b c) (Z.land (not32 b) d), i)
    else if (i <? 32)%nat then
      (Z.lor (Z.land d b) (Z.land (not32 d) c), ((5 * i + 1) mod 16)%nat)
    else if (i <? 48)%nat then
      (Z.lxor b (Z.lxor c d), ((3 * i + 5) mod 16)%nat)
    else (Z.lxor c (Z.lor b (not32 d)), ((7 * i) mod 16)%nat) in
  let f := add32 (add32 (add32 f a) (nth i K 0)) (nth g M 0) in
  (d, add32 b (rotl32 f (nth i S 0)), b, c).

Definition block (h : Z * Z * Z * Z) (M : list Z) : Z * Z * Z * Z :=
  let '(a, b, c, d) := fold_left (round M) (seq 0 64) h in
  let '(a0, b0, c0, d0) := h in
  (add32 a0 a, add32 b0 b, add32 c0 c, add32 d0 d).

Fixpoint chunks {A} (n fuel : nat) (l : list A) : list (list A) :=
  match fuel with
  | O => []
  | Datatypes.S f =>
      match l with
      | [] => []
      | _ => firstn n l :: chunks n f (skipn n l)
      end
  end.

Definition le_word (b : list Z) : Z :=
  nth 0 b 0 + Z.shiftl (nth 1 b 0) 8 + Z.shiftl (nth 2 b 0) 16
  + Z.shiftl (nth 3 b 0) 24.

Definition le_bytes (n : nat) (x : Z) : list Z :=
  map (fun i => Z.land (Z.shiftr x (8 * Z.of_nat i)) 255) (seq 0 n).

Definition pad (m : list Z) : list Z :=
  let len := Z.of_nat (length m) in
  m ++ [128] ++ repeat 0 (Z.to_nat ((55 - len) mod 64))
    ++ le_bytes 8 ((8 * len) mod 2 ^ 64).

Definition digest (m : list Z) : list Z :=
  let p := pad m in
  let words := map (fun blk => map le_word (chunks 4 64 blk))
                   (chunks 64 (length p) p) in
  let '(a, b, c, d) :=
    fold_left block words (1732584193, 4023233417, 2562383102, 271733878) in
  le_bytes 4 a ++ le_bytes 4 b ++ le_bytes 4 c ++ le_bytes 4 d.

Definition hex_digit (d : Z) : Z := if d <? 10 then 48 + d else 87 + d.

Definition hexdigest (bs : list Z) : pystr :=
  flat_map (fun b => [hex_digit (Z.shiftr b 4); hex_digit (Z.land b 15)]) bs.

End MD5.

Definition md5_hexdigest (bs : list Z) : pystr := MD5.hexdigest (MD5.digest bs).


(* ================================================================== *)
(** ** [CacheEntry] and [LRUCache] (cache.py) *)

Section LRU.

Context {V : Type}.

(** [@dataclass class CacheEntry] *)
Record CacheEntry := mkEntry {
  value : V;
  created_at : Z;
  ttl : Z;
  entry_hits : nat
}.

(** [CacheEntry.is_expired]: [time.time() - self.created_at > self.ttl] *)
Definition is_expired (now : Z) (e : CacheEntry) : bool :=
  now - created_at e >? ttl e.

(** [CacheEntry.touch] *)
Definition touch (e : CacheEntry) : CacheEntry :=
  mkEntry (value e) (created_at e) (ttl e) (Datatypes.S (entry_hits e)).

(** The [OrderedDict[str, CacheEntry]]: an association list in
    iteration order, least recently used first. *)
Definition odict := list (pystr * CacheEntry).

(** [d.get(key)] *)
Fixpoint od_get (k : pystr) (d : odict) : option CacheEntry :=
  match d with
  | [] => None
  | (k', e) :: d' => if key_eqb k k' then Some e else od_get k d'
  end.

(** [del d[key]] (the key is present when the code calls it) *)
Definition od_del (k : pystr) (d : odict) : odict :=
  filter (fun p => negb (key_eqb k (fst p))) d.

(** [d[key] = e]: an existing key keeps its position, a new key goes
    to the end. *)
Definition od_setitem (k : pystr) (e : CacheEntry) (d : odict) : odict :=
  if existsb (fun p => key_eqb k (fst p)) d
  then map (fun p => if key_eqb k (fst p) then (k, e) else p) d
  else d ++ [(k, e)].

Record LRUCache := mkCache {
  max_size : Z;
  default_ttl : Z;
  cache : odict;
  hits : nat;
  misses : nat
}.

(** [LRUCache(max_size, default_ttl)] *)
Definition new_cache (max : Z) (dttl : Z) : LRUCache := mkCache max dttl [] 0 0.

(** [LRUCache.get]. On a hit, [move_to_end] and then [entry.touch()];
    the touched entry is the object stored in the dict. *)
Definition get (c : LRUCache) (key : pystr) (now : Z) : option V * LRUCache :=
  match od_get key (cache c) with
  | None =>
      (None, mkCache (max_size c) (default_ttl c) (cache c) (hits c)
               (Datatypes.S (misses c)))
  | Some e =>
      if is_expired now e then
        (None, mkCache (max_size c) (default_ttl c) (od_del key (cache c))
                 (hits c) (Datatypes.S (misses c)))
      else
        (Some (value e),
         mkCache (max_size c) (default_ttl c)
           (od_del key (cache c) ++ [(key, touch e)])
           (Datatypes.S (hits c)) (misses c))
  end.

(** [while len(self._cache) >= self.max_size: del the first key].
    On an empty dict [next(iter(self._cache))] raises. *)
Fixpoint evict (max : Z) (d : odict) : option odict :=
  if Z.of_nat (length d) >=? max then
    match d with
    | [] => None
    | _ :: d' => evict max d'
    end
  else Some d.

(** [ttl or self.default_ttl] for [ttl : Optional[float]]: [None] and
    the falsy [0] both select the default. *)
Definition ttl_or_default (c : LRUCache) (t : option Z) : Z :=
  match t with
  | Some t => if t =? 0 then default_ttl c else t
  | None => default_ttl c
  end.

(** [LRUCache.set] *)
Definition set (c : LRUCache) (key : pystr) (v : V) (t : option Z) (now : Z)
  : option LRUCache :=
  match evict (max_size c) (cache c) with
  | None => None
  | Some d =>
      Some (mkCache (max_size c) (default_ttl c)
              (od_setitem key (mkEntry v now (ttl_or_default c t) 0) d)
              (hits c) (misses c))
  end.

(** [LRUCache.size] *)
Definition size (c : LRUCache) : nat := length (cache c).

(** [LRUCache.stats] (without the constant [name]):
    [hit_rate = (self._hits / total * 100) if total > 0 else 0], returned
    as [f"{hit_rate:.1f}%"]. The [int] [0] formats like the [float] [0.0].
    [None] would be an exception of the division, which the code never
    meets ([hits <= total]). *)
Record Stats := mkStats {
  st_size : nat;
  st_max_size : Z;
  st_hits : nat;
  st_misses : nat;
  st_hit_rate : pystr
}.

Definition stats (c : LRUCache) : option Stats :=
  let total := (hits c + misses c)%nat in
  let hit_rate :=
    if (0 <? total)%nat
    then option_map (fun q => float_mul_int q 100)
           (int_truediv (Z.of_nat (hits c)) (Z.of_nat total))
    else Some (PFinite 0 0) in
  match hit_rate with
  | Some r =>
      Some (mkStats (length (cache c)) (max_size c) (hits c) (misses c)
              (format_1f r ++ py "%"))
  | None => None
  end.

(** A sequence of [set] / [get] calls, each with its clock reading. *)
Inductive op :=
| OSet (k : pystr) (v : V) (t : option Z) (now : Z)
| OGet (k : pystr) (now : Z).

(** Runs the calls in order; returns the final cache and the results of
    the [get] calls. [None] when a call raised. *)
Fixpoint run (c : LRUCache) (ops : list op) : option (LRUCache * list (option V)) :=
  match ops with
  | [] => Some (c, [])
  | OSet k v t now :: ops' =>
      match set c k v t now with
      | Some c' => run c' ops'
      | None => None
      end
  | OGet k now :: ops' =>
      let (r, c') := get c k now in
      match run c' ops' with
      | Some (c'', rs) => Some (c'', r :: rs)
      | None => None
      end
  end.

(** A [get] result that is a hit. *)
Definition is_hit (r : option V) : bool :=
  match r with Some _ => true | None => false end.

End LRU.

Arguments LRUCache : clear implicits.
Arguments CacheEntry : clear implicits.
Arguments odict : clear implicits.
Arguments op : clear implicits.

Definition keys {V} (c : LRUCache V) : list pystr := map fst (cache c).

(** The invariant of the data model: [size <= capacity], keys unique. *)
Definition lru_inv {V} (c : LRUCache V) : Prop :=
  Z.of_nat (length (cache c)) <= max_size c /\ NoDup (map fst (cache c)).







(* ================================================================== *)
(** ** [AIResponseCache] and [cached_ai_call] (cache.py) *)

Definition TTL_VACANCY_ANALYSIS : Z := 3600.
Definition TTL_RECRUITER_ANALYSIS : Z := 1800.

(** [AIResponseCache._make_key]:
    [f"{model}:{hashlib.md5(prompt[:500].encode()).hexdigest()}"] *)
Definition make_key (prompt model : pystr) : option pystr :=
  match encode (py_prefix 500 prompt) with
  | Some b => Some (model ++ py ":" ++ md5_hexdigest b)
  | None => None
  end.

(** [AIResponseCache(max_size)]: its [_cache] *)
Definition new_ai_cache {V} (max : Z) : LRUCache V :=
  new_cache max TTL_VACANCY_ANALYSIS.

Section AIResponseCache.

Context {V : Type}.

(** [AIResponseCache.get_vacancy_analysis] *)
Definition get_vacancy_analysis (c : LRUCache V) (vacancy_text model : pystr)
  (now : Z) : option (option V * LRUCache V) :=
  match make_key vacancy_text model with
  | Some key => Some (get c key now)
  | None => None
  end.

(** [AIResponseCache.set_vacancy_analysis] *)
Definition set_vacancy_analysis (c : LRUCache V) (vacancy_text model : pystr)
  (result : V) (now : Z) : option (LRUCache V) :=
  match make_key vacancy_text model with
  | Some key => set c key result (Some TTL_VACANCY_ANALYSIS) now
  | None => None
  end.

(** [f"{vacancy_text[:500]}|{resume_text[:500]}"] *)
Definition recruiter_combined (vacancy_text resume_text : pystr) : pystr :=
  py_prefix 500 vacancy_text ++ py "|" ++ py_prefix 500 resume_text.

(** The key computed by [get_recruiter_analysis] and
    [set_recruiter_analysis]. *)
Definition recruiter_key (vacancy_text resume_text model : pystr) : option pystr :=
  make_key (recruiter_combined vacancy_text resume_text) model.

(** [AIResponseCache.get_recruiter_analysis] *)
Definition get_recruiter_analysis (c : LRUCache V)
  (vacancy_text resume_text model : pystr) (now : Z)
  : option (option V * LRUCache V) :=
  match recruiter_key vacancy_text resume_text model with
  | Some key => Some (get c key now)
  | None => None
  end.

(** [AIResponseCache.set_recruiter_analysis] *)
Definition set_recruiter_analysis (c : LRUCache V)
  (vacancy_text resume_text model : pystr) (result : V) (now : Z)
  : option (LRUCache V) :=
  match recruiter_key vacancy_text resume_text model with
  | Some key => set c key result (Some TTL_RECRUITER_ANALYSIS) now
  | None => None
  end.

(** [cached_ai_call(cache_key, ttl, func, ...)] on the global cache's
    [_cache]. [result] is what [await func(...)] returns ([None] for
    Python's [None]); it is only used when [func] is called. The first
    component of the answer says whether [func] was called. [now_get] and
    [now_set] are the clock readings at the lookup and at the store. *)
Definition cached_ai_call (c : LRUCache V) (cache_key : pystr) (ttl : Z)
  (result : option V) (now_get now_set : Z)
  : option (bool * option V * LRUCache V) :=
  let (cached, c1) := get c cache_key now_get in
  match cached with
  | Some v => Some (false, Some v, c1)
  | None =>
      match result with
      | Some r =>
          match set c1 cache_key r (Some ttl) now_set with
          | Some c2 => Some (true, Some r, c2)
          | None => None
          end
      | None => Some (true, None, c1)
      end
  end.

End AIResponseCache.

(* ================================================================== *)
(** ** [DatabasePool.initialize] and [DatabasePool.acquire] (database.py) *)

Module DatabasePool.

(** The pool's state: [pool_size], [_initialized], whether [_lock] is
    held, [len(self._connections)] and [self._pool.qsize()]. *)
Record Pool := mkPool {
  pool_size : nat;
  initialized : bool;
  locked : bool;
  connections : nat;
  available : nat
}.

(** [DatabasePool(pool_size=n)] *)
Definition new_pool (n : nat) : Pool := mkPool n false false 0 0.

(** How a call ends. [Blocked]: the task waits forever, on [_lock]
    held by the task itself (the model runs the one calling task, so
    nothing else releases it) or on [put] into a full queue. [Raised]: an
    exception ([asyncio.TimeoutError] from [wait_for]). [OutOfFuel]: the
    recursion bound of the model ran out. *)
Inductive outcome :=
| Done (p : Pool)
| Blocked (p : Pool)
| Raised (p : Pool)
| OutOfFuel.

Definition with_lock (b : bool) (p : Pool) : Pool :=
  mkPool (pool_size p) (initialized p) b (connections p) (available p).

Definition with_available (n : nat) (p : Pool) : Pool :=
  mkPool (pool_size p) (initialized p) (locked p) (connections p) n.

(** [await self._pool.put(conn)] on [asyncio.Queue(maxsize=pool_size)];
    [maxsize = 0] is unbounded. *)
Definition put (p : Pool) : outcome :=
  if (0 <? pool_size p)%nat && (pool_size p <=? available p)%nat
  then Blocked p
  else Done (with_available (Datatypes.S (available p)) p).

(** [for _ in range(k)]: connect, append to [_connections], [put]. *)
Fixpoint create_connections (k : nat) (p : Pool) : outcome :=
  match k with
  | O => Done p
  | Datatypes.S k' =>
      let p1 := mkPool (pool_size p) (initialized p) (locked p)
                  (Datatypes.S (connections p)) (available p) in
      match put p1 with
      | Done p2 => create_connections k' p2
      | r => r
      end
  end.

(** [initialize] and the entry of [acquire] (up to its [yield]); the
    schema statements run on the borrowed connection are no-ops for the
    pool's state. Leaving [async with self.acquire()] puts the connection
    back. *)
Fixpoint initialize (fuel : nat) (p : Pool) : outcome :=
  match fuel with
  | O => OutOfFuel
  | Datatypes.S f =>
      if initialized p then Done p
      else if locked p then Blocked p
      else
        let p := with_lock true p in
        if initialized p then Done (with_lock false p)
        else
          match create_connections (pool_size p) p with
          | Done p1 =>
              match acquire f p1 with
              | Done p2 =>
                  match put p2 with
                  | Done p3 =>
                      Done (mkPool (pool_size p3) true false
                              (connections p3) (available p3))
                  | r => r
                  end
              | r => r
              end
          | r => r
          end
  end
with acquire (fuel : nat) (p : Pool) : outcome :=
  match fuel with
  | O => OutOfFuel
  | Datatypes.S f =>
      match (if initialized p then Done p else initialize f p) with
      | Done p1 =>
          match available p1 with
          | O => Raised p1
          | Datatypes.S n => Done (with_available n p1)
          end
      | r => r
      end
  end.

End DatabasePool.

(* ================================================================== *)
(** ** Improvement-task registry of [AppState] (state.py) *)

Module TaskRegistry.

(** [self._improvement_tasks]: vacancy id to the info dict, in insertion
    order; the info dict is reduced to its ["status"] field, the only one
    the cleanup reads. *)
Definition registry := list (string * string).

(** [AppState.add_improvement_task]: [d[vid] = {"task": .., "status":
    "running"}]; an existing id keeps its position. *)
Definition add_improvement_task (r : registry) (vid : string) : registry :=
  if existsb (fun p => String.eqb vid (fst p)) r
  then map (fun p => if String.eqb vid (fst p) then (vid, "running"%string) else p) r
  else r ++ [(vid, "running"%string)].

(** [AppState.update_improvement_task] *)
Definition update_improvement_task (r : registry) (vid status : string) : registry :=
  map (fun p => if String.eqb vid (fst p) then (vid, status) else p) r.

Definition is_finished (status : string) : bool :=
  String.eqb status "completed" || String.eqb status "error".

(** [l[:stop]] for an integer [stop]. *)
Definition py_slice_to {A} (l : list A) (stop : Z) : list A :=
  let len := Z.of_nat (length l) in
  firstn (Z.to_nat (if stop <? 0 then Z.max 0 (len + stop) else Z.min stop len)) l.

(** [AppState.cleanup_improvement_tasks(max_completed)] *)
Definition cleanup_improvement_tasks (r : registry) (max_completed : Z) : registry :=
  let completed := map fst (filter (fun p => is_finished (snd p)) r) in
  if Z.of_nat (length completed) >? max_completed then
    let to_remove := py_slice_to completed (- max_completed) in
    fold_left (fun r vid => filter (fun p => negb (String.eqb vid (fst p))) r)
      to_remove r
  else r.

End TaskRegistry.

Module TaskRegistryMore.
Import TaskRegistry.

(** [AppState.get_improvement_task]: [d.get(vid)], reduced to the status. *)
Fixpoint get_improvement_task (r : registry) (vid : string) : option string :=
  match r with
  | [] => None
  | (v, st) :: r' => if String.eqb vid v then Some st else get_improvement_task r' vid
  end.

End TaskRegistryMore.

(* ================================================================== *)
(** ** More of [LRUCache] and [make_cache_key] (cache.py) *)

Section LRUMore.

Context {V : Type}.
Implicit Types (c : LRUCache V).

(** [LRUCache.delete] *)
Definition delete c (key : pystr) : bool * LRUCache V :=
  if existsb (fun p => key_eqb key (fst p)) (cache c)
  then (true, mkCache (max_size c) (default_ttl c) (od_del key (cache c))
                (hits c) (misses c))
  else (false, c).

(** [LRUCache.clear] *)
Definition clear c : nat * LRUCache V :=
  (length (cache c), mkCache (max_size c) (default_ttl c) [] (hits c) (misses c)).

(** [LRUCache.cleanup_expired]: the expired keys are collected first,
    then deleted one by one. *)
Definition cleanup_expired c (now : Z) : nat * LRUCache V :=
  let expired_keys := map fst (filter (fun p => is_expired now (snd p)) (cache c)) in
  (length expired_keys,
   mkCache (max_size c) (default_ttl c)
     (fold_left (fun d k => od_del k d) expired_keys (cache c))
     (hits c) (misses c)).

End LRUMore.

(** Python's [<] on [str]: lexicographic on code points. *)
Fixpoint str_ltb (a b : pystr) : bool :=
  match a, b with
  | [], [] => false
  | [], _ :: _ => true
  | _ :: _, [] => false
  | x :: a', y :: b' => if x <? y then true else if y <? x then false else str_ltb a' b'
  end.

(** [<] on [(str, str)] tuples. *)
Definition item_ltb (p q : pystr * pystr) : bool :=
  str_ltb (fst p) (fst q) || (key_eqb (fst p) (fst q) && str_ltb (snd p) (snd q)).

Fixpoint insert_item (p : pystr * pystr) (l : list (pystr * pystr)) :=
  match l with
  | [] => [p]
  | q :: l' => if item_ltb q p then q :: insert_item p l' else p :: l
  end.

(** [sorted(kwargs.items())] (insertion sort, stable). *)
Definition sort_items (l : list (pystr * pystr)) : list (pystr * pystr) :=
  fold_right insert_item [] l.

(** [sep.join(parts)] *)
Definition join (sep : pystr) (parts : list pystr) : pystr :=
  match parts with
  | [] => []
  | x :: xs => x ++ concat (map (fun p => sep ++ p) xs)
  end.

(** [make_cache_key] on positional [args] and keyword [kwargs]. [args] are given as their
    [str(a)] images and [kwargs] as [(name, str(value))] pairs. *)
Definition make_cache_key (args : list pystr) (kwargs : list (pystr * pystr))
  : option pystr :=
  let key_parts := args ++ map (fun kv => fst kv ++ py "=" ++ snd kv) (sort_items kwargs) in
  let key_str := join (py "|") key_parts in
  option_map md5_hexdigest (encode key_str).

(* ================================================================== *)
(** ** Database helpers that borrow from the pool (database.py) *)

(** [mark_forwarded_batch(messages)] on the pool [p] (the global pool of
    [get_pool()]): an empty list returns at once; otherwise the function
    borrows a connection with [async with pool.acquire()], runs the
    insert and commit on it (no effect on the pool's state), and the
    [finally] of [acquire] puts it back. *)
Definition mark_forwarded_batch (fuel : nat) (messages : list (Z * Z))
  (p : DatabasePool.Pool) : DatabasePool.outcome :=
  match messages with
  | [] => DatabasePool.Done p
  | _ =>
      match DatabasePool.acquire fuel p with
      | DatabasePool.Done p1 => DatabasePool.put p1
      | r => r
      end
  end.

(* ================================================================== *)
(** ** [AppState] (state.py) *)

Module AppState.

(** [@dataclass class Stats] *)
Record Stats := mkStats { found : Z; processed : Z; rejected : Z; suitable : Z }.

(** [Stats()] and [Stats.reset] *)
Definition stats0 : Stats := mkStats 0 0 0 0.
Definition reset (s : Stats) : Stats := stats0.

(** [AppState.update_stats(found, processed, rejected, suitable)];
    [None] leaves a counter as it is. *)
Definition update_stats (s : Stats) (f p r su : option Z) : Stats :=
  mkStats (match f with Some x => x | None => found s end)
          (match p with Some x => x | None => processed s end)
          (match r with Some x => x | None => rejected s end)
          (match su with Some x => x | None => suitable s end).

(** [AppState.increment_stats(found, processed, rejected, suitable)] *)
Definition increment_stats (s : Stats) (f p r su : Z) : Stats :=
  mkStats (found s + f) (processed s + p) (rejected s + r) (suitable s + su).

(** The monitoring region: [_monitoring_active] and [_monitoring_task]. *)
Record Monitoring (T : Type) := mkMonitoring {
  monitoring_active : bool;
  monitoring_task : option T
}.
Arguments mkMonitoring {T}.
Arguments monitoring_active {T}.
Arguments monitoring_task {T}.

(** [AppState.start_monitoring(task)] *)
Definition start_monitoring {T} (m : Monitoring T) (task : T) : bool * Monitoring T :=
  if monitoring_active m then (false, m) else (true, mkMonitoring true (Some task)).

(** [AppState.stop_monitoring()] *)
Definition stop_monitoring {T} (m : Monitoring T) : option T * Monitoring T :=
  (monitoring_task m, mkMonitoring false None).

(** Values stored in the settings dict. *)
#[warnings="-register-all"]
Inductive pyval :=
| VStr (s : pystr)
| VInt (z : Z)
| VBool (b : bool)
| VList (l : list pyval).

(** A [Dict[str, Any]] in insertion order. *)
Definition dict (A : Type) := list (pystr * A).

(** [d.get(key)] *)
Fixpoint dict_get {A} (k : pystr) (d : dict A) : option A :=
  match d with
  | [] => None
  | (k', v) :: d' => if key_eqb k k' then Some v else dict_get k d'
  end.

(** [d[key] = v] *)
Definition dict_setitem {A} (k : pystr) (v : A) (d : dict A) : dict A :=
  if existsb (fun p => key_eqb k (fst p)) d
  then map (fun p => if key_eqb k (fst p) then (k, v) else p) d
  else d ++ [(k, v)].

(** [self._settings] as set by [__init__] *)
Definition default_settings : dict pyval :=
  [(py "model_type", VStr (py "mistral")); (py "days_back", VInt 7);
   (py "custom_prompt", VStr []); (py "resume_summary", VStr []);
   (py "channels", VList []); (py "enable_stage2", VBool false)].

(** [AppState.update_settings(updates)]: [dict.update] *)
Definition update_settings (s updates : dict pyval) : dict pyval :=
  fold_left (fun d kv => dict_setitem (fst kv) (snd kv) d) updates s.

(** [AppState.set_settings(settings)]: [settings.copy()] *)
Definition set_settings (s settings : dict pyval) : dict pyval := settings.

(** [AppState.get_setting(key, default)] *)
Definition get_setting (s : dict pyval) (key : pystr) (default : pyval) : pyval :=
  match dict_get key s with Some v => v | None => default end.

(** The WebSocket client list; clients are compared with [==]. *)
Section WsClients.

Context {C : Type} (C_eq_dec : forall x y : C, {x = y} + {x <> y}).

Definition mem (c : C) (l : list C) : bool :=
  existsb (fun x => if C_eq_dec c x then true else false) l.

(** [list.remove(c)]: the first occurrence *)
Fixpoint remove_first (c : C) (l : list C) : list C :=
  match l with
  | [] => []
  | x :: l' => if C_eq_dec c x then l' else x :: remove_first c l'
  end.

(** [AppState.add_ws_client] *)
Definition add_ws_client (l : list C) (c : C) : list C :=
  if mem c l then l else l ++ [c].

(** [AppState.remove_ws_client] *)
Definition remove_ws_client (l : list C) (c : C) : list C :=
  if mem c l then remove_first c l else l.

(** [AppState.cleanup_ws_clients(dead_clients)] *)
Definition cleanup_ws_clients (l : list C) (dead : list C) : list C :=
  fold_left (fun l c => if mem c l then remove_first c l else l) dead l.

End WsClients.

(** The fields [__init__] sets that the model tracks. *)
Record Fields := mkFields {
  f_initialized : bool;
  f_stats : Stats;
  f_monitoring_active : bool;
  f_settings : dict pyval
}.

(** The heap of [AppState] objects (by address), the class attribute
    [AppState._instance], the module global [_state] and the next free
    address. *)
Record World := mkWorld {
  heap : list (nat * Fields);
  class_instance : option nat;
  global_state : option nat;
  next_addr : nat
}.

Fixpoint heap_get (a : nat) (h : list (nat * Fields)) : option Fields :=
  match h with
  | [] => None
  | (a', f) :: h' => if Nat.eqb a a' then Some f else heap_get a h'
  end.

Definition heap_set (a : nat) (f : Fields) (h : list (nat * Fields)) :=
  (a, f) :: h.

(** [AppState.__new__]: the one instance, allocated (with
    [_initialized = False]) on first use. *)
Definition new_ (w : World) : nat * World :=
  match class_instance w with
  | Some a => (a, w)
  | None =>
      let a := next_addr w in
      let f := mkFields false stats0 false [] in
      (a, mkWorld (heap_set a f (heap w)) (Some a) (global_state w) (Datatypes.S a))
  end.

(** [AppState.__init__(self)] *)
Definition init_ (a : nat) (w : World) : World :=
  match heap_get a (heap w) with
  | Some f =>
      if f_initialized f then w
      else mkWorld (heap_set a (mkFields true stats0 false default_settings) (heap w))
             (class_instance w) (global_state w) (next_addr w)
  | None => w
  end.

(** [AppState()]: [__new__] then [__init__] on its result. *)
Definition construct (w : World) : nat * World :=
  let (a, w1) := new_ w in (a, init_ a w1).

(** [get_state()] *)
Definition get_state (w : World) : nat * World :=
  match global_state w with
  | Some a => (a, w)
  | None =>
      let (a, w1) := construct w in
      (a, mkWorld (heap w1) (class_instance w1) (Some a) (next_addr w1))
  end.

(** Module-level [increment_stats] with keyword arguments, on [get_state()]. *)
Definition increment_stats_global (w : World) (f p r su : Z) : World :=
  let (a, w1) := get_state w in
  match heap_get a (heap w1) with
  | Some fl =>
      mkWorld (heap_set a (mkFields (f_initialized fl)
                             (increment_stats (f_stats fl) f p r su)
                             (f_monitoring_active fl) (f_settings fl)) (heap w1))
        (class_instance w1) (global_state w1) (next_addr w1)
  | None => w1
  end.

(** [get_stats()]: the stats of [get_state()]. *)
Definition get_stats (w : World) : option Stats * World :=
  let (a, w1) := get_state w in (option_map f_stats (heap_get a (heap w1)), w1).

(** The interpreter before any [AppState] exists. *)
Definition world0 : World := mkWorld [] None None 0.

(** A sequence of calls on the module-level API. *)
Inductive call :=
| CIncrement (f p r su : Z)
| CConstruct
| CGetState.

(** [increment_stats(...)], [AppState()] and [get_state()] run in order. *)
Fixpoint run_calls (w : World) (cs : list call) : World :=
  match cs with
  | [] => w
  | CIncrement f p r su :: cs' => run_calls (increment_stats_global w f p r su) cs'
  | CConstruct :: cs' => run_calls (snd (construct w)) cs'
  | CGetState :: cs' => run_calls (snd (get_state w)) cs'
  end.

(** The counters reached from [s] by the increments of [cs]. *)
Fixpoint total_increments (s : Stats) (cs : list call) : Stats :=
  match cs with
  | [] => s
  | CIncrement f p r su :: cs' => total_increments (increment_stats s f p r su) cs'
  | _ :: cs' => total_increments s cs'
  end.

End AppState.

(* ================================================================== *)
(** ** Shapes of the produced keys *)

(** A character of [hexdigest()]'s alphabet: [0-9a-f]. *)
Definition is_lower_hex (c : Z) : bool :=
  ((48 <=? c) && (c <=? 57)) || ((97 <=? c) && (c <=? 102)).

(* ================================================================== *)
(** ** Predicates used by the properties below *)

(** No call in [ops] stores the key [k]. *)
Definition no_set_of {V} (k : pystr) (o : op V) : Prop :=
  match o with OSet k' _ _ _ => k' <> k | OGet _ _ => True end.

(** [k] is absent, or holds an entry with the value, creation time and
    TTL of [e]. *)
Definition same_life {V} (k : pystr) (e : CacheEntry V) (c : LRUCache V) : Prop :=
  match od_get k (cache c) with
  | None => True
  | Some e' => value e' = value e /\ created_at e' = created_at e /\ ttl e' = ttl e
  end.

(** The interpreter once the [AppState] singleton exists:
    [AppState._instance] is the object at [a], already initialized, with
    counters [s]; [_state] is unset or the same object. *)
Definition appstate_ready (w : AppState.World) (a : nat) (s : AppState.Stats) : Prop :=
  AppState.class_instance w = Some a /\
  (AppState.global_state w = None \/ AppState.global_state w = Some a) /\
  exists f, AppState.heap_get a (AppState.heap w) = Some f /\
            AppState.f_initialized f = true /\ AppState.f_stats f = s.

(** [x != c], for the client lists of [AppState]. *)
Definition not_c {C} (dec : forall x y : C, {x = y} + {x <> y}) (c x : C) : bool :=
  if dec c x then false else true.

(* ================================================================== *)
(** * Properties *)

(** ** Checks of the model on concrete inputs *)

Example md5_empty :
  md5_hexdigest [] = py "d41d8cd98f00b204e9800998ecf8427e".
Proof. vm_compute. reflexivity. Qed.

Example md5_abc :
  md5_hexdigest (py "abc") = py "900150983cd24fb0d6963f7d28e17f72".
Proof. vm_compute. reflexivity. Qed.

Example md5_200a :
  md5_hexdigest (repeat 97 200) = py "887f30b43b2867f4a9accceee7d16e6c".
Proof. vm_compute. reflexivity. Qed.

Example lru_promote_example :
  let a := py "a" in let b := py "b" in let c := py "c" in
  option_map keys
    (option_map fst (run (new_cache 2 300)
       [OSet a 1%nat None 0; OSet b 2%nat None 0; OGet a 0;
        OSet c 3%nat None 0]))
  = Some [a; c].
Proof. reflexivity. Qed.

(** ** Lemmas on the ordered dict and the LRU operations *)

Lemma key_eqb_true (a b : pystr) : key_eqb a b = true <-> a = b.
Proof. unfold key_eqb. destruct (list_eq_dec Z.eq_dec a b); split; congruence. Qed.

Lemma key_eqb_refl (a : pystr) : key_eqb a a = true.
Proof. apply key_eqb_true. reflexivity. Qed.

Lemma key_eqb_false (a b : pystr) : key_eqb a b = false <-> a <> b.
Proof.
  unfold key_eqb. destruct (list_eq_dec Z.eq_dec a b); split; congruence.
Qed.

Section LRULemmas.

Context {V : Type}.
Implicit Types (d : odict V) (c : LRUCache V).

Lemma od_del_keys k d :
  map fst (od_del k d) = filter (fun x => negb (key_eqb k x)) (map fst d).
Proof.
  induction d as [|[k' e] d IH]; simpl; [reflexivity|].
  destruct (key_eqb k k'); simpl; rewrite ?IH; reflexivity.
Qed.

Lemma od_del_nodup k d : NoDup (map fst d) -> NoDup (map fst (od_del k d)).
Proof. intros H. rewrite od_del_keys. apply NoDup_filter, H. Qed.

Lemma od_del_notin k d : ~ In k (map fst (od_del k d)).
Proof.
  rewrite od_del_keys, filter_In. intros [_ H].
  rewrite key_eqb_refl in H. discriminate.
Qed.

Lemma od_del_length k d : (length (od_del k d) <= length d)%nat.
Proof. apply filter_length_le. Qed.

Lemma od_get_none k d : od_get k d = None -> ~ In k (map fst d).
Proof.
  induction d as [|[k' e] d IH]; simpl; [tauto|].
  destruct (key_eqb k k') eqn:E; [discriminate|].
  apply key_eqb_false in E. intros H [H1|H1]; [congruence|].
  exact (IH H H1).
Qed.

Lemma od_get_app_last k e d :
  ~ In k (map fst d) -> od_get k (d ++ [(k, e)]) = Some e.
Proof.
  induction d as [|[k' e'] d IH]; simpl; intros Hn.
  - rewrite key_eqb_refl. reflexivity.
  - destruct (key_eqb k k') eqn:E.
    + apply key_eqb_true in E. subst. tauto.
    + apply IH. tauto.
Qed.

Lemma existsb_key_false k d :
  existsb (fun p => key_eqb k (fst p)) d = false -> ~ In k (map fst d).
Proof.
  intros H Hin. apply in_map_iff in Hin as [[k' e] [Hk Hin]]. simpl in Hk.
  subst. assert (existsb (fun p => key_eqb k (fst p)) d = true) as H'.
  { apply existsb_exists. exists (k, e). simpl. rewrite key_eqb_refl. auto. }
  congruence.
Qed.

Lemma od_setitem_keys_present k e d :
  existsb (fun p => key_eqb k (fst p)) d = true ->
  map fst (od_setitem k e d) = map fst d.
Proof.
  unfold od_setitem. intros ->. rewrite map_map. apply map_ext.
  intros [k' e']. simpl. destruct (key_eqb k k') eqn:E; [|reflexivity].
  apply key_eqb_true in E. simpl. congruence.
Qed.

Lemma od_setitem_inv k e d :
  NoDup (map fst d) ->
  NoDup (map fst (od_setitem k e d)) /\
  (length (od_setitem k e d) <= Datatypes.S (length d))%nat.
Proof.
  intros Hnd. destruct (existsb (fun p => key_eqb k (fst p)) d) eqn:Ex.
  - rewrite od_setitem_keys_present by exact Ex. split; [exact Hnd|].
    unfold od_setitem. rewrite Ex, length_map. lia.
  - unfold od_setitem. rewrite Ex. apply existsb_key_false in Ex.
    rewrite map_app, length_app. simpl. split; [|lia].
    apply NoDup_app; [exact Hnd | constructor; [tauto | constructor] |].
    intros a Ha [Hb|[]]. subst. contradiction.
Qed.

Lemma od_get_setitem k e d : od_get k (od_setitem k e d) = Some e.
Proof.
  unfold od_setitem. destruct (existsb (fun p => key_eqb k (fst p)) d) eqn:Ex.
  - induction d as [|[k' e'] d IH]; simpl in *; [discriminate|].
    destruct (key_eqb k k') eqn:E; simpl; rewrite ?key_eqb_refl, ?E;
      [reflexivity|]. apply IH. exact Ex.
  - apply od_get_app_last, existsb_key_false, Ex.
Qed.

Lemma evict_spec max d :
  0 < max ->
  exists pre d', evict max d = Some d' /\ d = pre ++ d' /\
                 Z.of_nat (length d') < max.
Proof.
  intros Hm. induction d as [|x d IH]; simpl.
  - destruct (0 >=? max) eqn:E; [apply Z.geb_le in E; lia|].
    exists [], []. auto.
  - destruct (Z.pos (Pos.of_succ_nat (length d)) >=? max) eqn:E.
    + destruct IH as (pre & d' & H1 & H2 & H3).
      exists (x :: pre), d'. split; [exact H1|]. rewrite H2. auto.
    + exists [], (x :: d). simpl. split; [reflexivity|]. split; [reflexivity|].
      rewrite Z.geb_leb in E. apply Z.leb_gt in E. simpl. lia.
Qed.


Lemma set_inv c k v t now :
  0 < max_size c -> NoDup (map fst (cache c)) ->
  exists c', set c k v t now = Some c' /\ lru_inv c' /\
             max_size c' = max_size c.
Proof.
  intros Hm Hnd. unfold set.
  destruct (evict_spec (max_size c) (cache c) Hm) as (pre & d' & -> & Hd & Hl).
  rewrite Hd in Hnd. rewrite map_app in Hnd. apply NoDup_app_remove_l in Hnd.
  destruct (od_setitem_inv k (mkEntry v now (ttl_or_default c t) 0) d' Hnd)
    as [H1 H2].
  eexists. split; [reflexivity|]. unfold lru_inv. simpl. split; [|reflexivity].
  split; [lia | exact H1].
Qed.

Lemma get_inv c k now :
  lru_inv c -> lru_inv (snd (get c k now)) /\
               max_size (snd (get c k now)) = max_size c.
Proof.
  unfold lru_inv, get. intros [Hl Hnd].
  destruct (od_get k (cache c)) as [e|] eqn:G; [|simpl; auto].
  assert (In k (map fst (cache c))) as Hin.
  { clear -G. induction (cache c) as [|[k' e'] d IH]; simpl in *; [discriminate|].
    destruct (key_eqb k k') eqn:E; [left; apply key_eqb_true in E; auto|].
    right. auto. }
  assert (length (od_del k (cache c)) < length (cache c))%nat as Hlt.
  { unfold od_del. clear -Hin.
    induction (cache c) as [|[k' e'] d IH]; simpl in *; [contradiction|].
    destruct (key_eqb k k') eqn:E; simpl.
    - pose proof (filter_length_le (fun p => negb (key_eqb k (fst p))) d). lia.
    - destruct Hin as [Hin|Hin]; [subst; rewrite key_eqb_refl in E; discriminate|].
      specialize (IH Hin). lia. }
  destruct (is_expired now e); simpl.
  - split; [|reflexivity]. split; [lia | apply od_del_nodup, Hnd].
  - split; [|reflexivity]. rewrite length_app, map_app. simpl. split; [lia|].
    apply NoDup_app; [apply od_del_nodup, Hnd | constructor; [tauto|constructor] |].
    intros a Ha [Hb|[]]. subst. exact (od_del_notin _ _ Ha).
Qed.

Lemma run_inv c ops :
  0 < max_size c -> lru_inv c ->
  exists c' rs, run c ops = Some (c', rs) /\ lru_inv c' /\
                max_size c' = max_size c.
Proof.
  revert c. induction ops as [|[k v t now|k now] ops IH]; intros c Hm Hi; simpl.
  - exists c, []. auto.
  - destruct (set_inv c k v t now Hm (proj2 Hi)) as (c1 & -> & Hi1 & Hm1).
    destruct (IH c1) as (c' & rs & -> & Hi' & Hm'); [lia | exact Hi1 |].
    exists c', rs. split; [reflexivity|]. split; [exact Hi'|congruence].
  - destruct (get_inv c k now Hi) as [Hi1 Hm1].
    destruct (get c k now) as [r c1] eqn:G. simpl in Hi1, Hm1.
    destruct (IH c1) as (c' & rs & -> & Hi' & Hm'); [lia | exact Hi1 |].
    exists c', (r :: rs). split; [reflexivity|]. split; [exact Hi'|congruence].
Qed.

End LRULemmas.

Section LRUFacts.

Context {V : Type}.
Implicit Types (d : odict V) (c : LRUCache V).

Lemma od_get_some_in k d e : od_get k d = Some e -> In k (map fst d).
Proof.
  induction d as [|[k' e'] d IH]; simpl; [discriminate|].
  destruct (key_eqb k k') eqn:E; [left; apply key_eqb_true in E; auto|].
  intros H. right. auto.
Qed.





Lemma get_counts c k now :
  max_size (snd (get c k now)) = max_size c /\
  ((exists v, fst (get c k now) = Some v /\
     hits (snd (get c k now)) = Datatypes.S (hits c) /\
     misses (snd (get c k now)) = misses c) \/
  (fst (get c k now) = None /\
     hits (snd (get c k now)) = hits c /\
     misses (snd (get c k now)) = Datatypes.S (misses c))).
Proof.
  split; [unfold get; destruct (od_get k (cache c)); [destruct (is_expired now c0)|]; reflexivity|].
  unfold get. destruct (od_get k (cache c)) as [e|]; [|right; simpl; auto].
  destruct (is_expired now e); [right; simpl; auto|left; eexists; simpl; eauto].
Qed.


Lemma run_counts c ops c' rs :
  run c ops = Some (c', rs) ->
  hits c' = (hits c + length (filter is_hit rs))%nat /\
  misses c' = (misses c + length (filter (fun r => negb (is_hit r)) rs))%nat /\
  max_size c' = max_size c.
Proof.
  revert c rs. induction ops as [|[k v t now|k now] ops IH]; intros c rs; simpl.
  - intros H. inversion H. subst. simpl. lia.
  - destruct (set c k v t now) as [c1|] eqn:S; [|discriminate].
    intros H. destruct (IH c1 rs H) as (H1 & H2 & H3).
    unfold set in S. destruct (evict _ _); inversion S; subst c1. simpl in *.
    auto.
  - destruct (get_counts c k now) as [Hmax [(v & Hr & Hh & Hm)|(Hr & Hh & Hm)]];
    destruct (get c k now) as [r c1]; simpl in *;
    destruct (run c1 ops) as [[c2 rs2]|] eqn:R; try discriminate;
    intros H; inversion H; subst;
    destruct (IH c1 rs2 R) as (H1 & H2 & H3); simpl;
    rewrite H1, H2, Hh, Hm; split; try lia; split; try lia; congruence.
Qed.

End LRUFacts.

(** ** Lemmas on the [float] model *)

Lemma round_half_even_nonneg n d : 0 <= n -> 0 < d -> 0 <= round_half_even n d.
Proof.
  intros Hn Hd. unfold round_half_even.
  pose proof (Z.div_pos n d Hn Hd).
  destruct (2 * (n mod d) <? d), (d <? 2 * (n mod d)), (Z.even (n / d)); lia.
Qed.

(** The rounding error is at most one half: [|m - n / d| <= 1 / 2]. *)
Lemma round_half_even_err n d :
  0 < d -> - d <= 2 * (round_half_even n d * d - n) <= d.
Proof.
  intros Hd. unfold round_half_even.
  pose proof (Z.div_mod n d ltac:(lia)) as E.
  pose proof (Z.mod_pos_bound n d Hd) as B.
  set (q := n / d) in *. set (r := n mod d) in *.
  destruct (2 * r <? d) eqn:E1; [apply Z.ltb_lt in E1; lia|].
  apply Z.ltb_ge in E1.
  destruct (d <? 2 * r) eqn:E2; [apply Z.ltb_lt in E2; lia|].
  apply Z.ltb_ge in E2. destruct (Z.even q); lia.
Qed.

Lemma round_half_even_le n d : 0 < d -> round_half_even n d * d <= n + d.
Proof. intros Hd. pose proof (round_half_even_err n d Hd). lia. Qed.

Lemma round_half_even_exact k d : 0 < d -> round_half_even (k * d) d = k.
Proof.
  intros Hd. unfold round_half_even.
  rewrite Z.div_mul, Z.mod_mul by lia. rewrite Z.mul_0_r.
  destruct (0 <? d) eqn:E; [reflexivity | apply Z.ltb_ge in E; lia].
Qed.

(** Rounding a quotient below [128]: the exponent is negative, at most
    [log2 n - log2 d - 52] above the subnormal range, and the result is
    finite. *)
Lemma round_binary64_small n d :
  0 < n -> 0 < d -> n < 128 * d ->
  exists e, -1074 <= e /\ e <= Z.max (Z.log2 n - Z.log2 d - 52) (-1074) /\
    round_binary64 n d = PFinite (round_half_even (n * 2 ^ (- e)) d) e.
Proof.
  intros Hn Hd Hnd.
  assert (Z.log2 n <= Z.log2 d + 7) as Hl.
  { assert (Z.log2 n <= Z.log2 (d * 2 ^ 7)) as H by (apply Z.log2_le_mono; lia).
    rewrite Z.log2_mul_pow2 in H by lia. lia. }
  assert (forall e, -1074 <= e < 0 ->
    (let (a, b) := scale n d e in
     let m := round_half_even a b in
     if 1024 <=? Z.log2 m + e then PInf else PFinite m e)
    = PFinite (round_half_even (n * 2 ^ (- e)) d) e) as Tail.
  { intros e He. unfold scale. rewrite (proj2 (Z.ltb_lt e 0)) by lia. cbv zeta.
    set (m := round_half_even (n * 2 ^ (- e)) d).
    assert (Hp : 0 < 2 ^ (- e)) by (apply Z.pow_pos_nonneg; lia).
    assert (m * d <= n * 2 ^ (- e) + d) by apply round_half_even_le, Hd.
    assert (m < 2 ^ (1024 - e)).
    { replace (1024 - e) with (1024 + - e) by ring. rewrite Z.pow_add_r by lia.
      assert (2 ^ 7 <= 2 ^ 1024) by (apply Z.pow_le_mono_r; lia). nia. }
    destruct (Z.le_gt_cases m 0) as [Hm|Hm].
    - rewrite (Z.log2_nonpos m Hm). rewrite (proj2 (Z.leb_gt _ _)) by lia.
      reflexivity.
    - apply Z.log2_lt_pow2 in H0; [|lia].
      rewrite (proj2 (Z.leb_gt _ _)) by lia. reflexivity. }
  unfold round_binary64. rewrite (proj2 (Z.eqb_neq n 0)) by lia. cbv zeta.
  destruct (scale n d (Z.log2 n - Z.log2 d - 52)) as [a b].
  destruct (a / b <? 2 ^ 52).
  - exists (Z.max (Z.log2 n - Z.log2 d - 52 - 1) (-1074)).
    split; [lia|]. split; [lia|]. apply Tail. lia.
  - exists (Z.max (Z.log2 n - Z.log2 d - 52) (-1074)).
    split; [lia|]. split; [lia|]. apply Tail. lia.
Qed.

(** The hit-rate string: for [0 <= h <= t], [t > 0],
    [f"{h / t * 100:.1f}"] is the integer [y / 10], a point and the digit
    [y mod 10], where [y / 10] is within [(1 + 2^-40) / 20] of
    [100 * h / t], and exactly [0] for [h = 0] and [100] for [h = t]. *)
Lemma hit_rate_digits (h t : Z) :
  0 <= h <= t -> 0 < t ->
  exists y,
    option_map (fun q => format_1f (float_mul_int q 100)) (int_truediv h t)
    = Some (str_of_nonneg (y / 10) ++ py "." ++ str_of_nonneg (y mod 10)) /\
    0 <= y /\ (h = 0 -> y = 0) /\ (h = t -> y = 1000) /\
    2 ^ 40 * Z.abs (2 * y * t - 2000 * h) <= (2 ^ 40 + 1) * t.
Proof.
  intros Hh Ht. unfold int_truediv. rewrite (proj2 (Z.leb_gt t 0)) by lia.
  destruct (Z.eq_dec h 0) as [->|Hh0].
  { exists 0. replace (round_binary64 0 t) with (PFinite 0 0) by reflexivity.
    split; [reflexivity|]. split; [lia|]. split; [reflexivity|].
    split; [lia|]. replace (2 * 0 * t - 2000 * 0) with 0 by ring. lia. }
  destruct (round_binary64_small h t) as (e1 & He1l & He1u & R1); [lia|lia|lia|].
  assert (Z.log2 h <= Z.log2 t) by (apply Z.log2_le_mono; lia).
  rewrite R1. simpl option_map. set (P1 := 2 ^ (- e1)) in *.
  set (m1 := round_half_even (h * P1) t) in *.
  assert (HP1 : 2 ^ 52 <= P1) by (apply Z.pow_le_mono_r; lia).
  pose proof (round_half_even_err (h * P1) t Ht) as A. fold m1 in A.
  assert (Hm1 : 0 <= m1) by (apply round_half_even_nonneg; nia).
  assert (Hm1P : m1 <= P1).
  { assert (t * (2 * m1) <= t * (1 + 2 * P1)) by nia. nia. }
  unfold float_mul_int, scale. rewrite (proj2 (Z.ltb_ge (- e1) 0)) by lia.
  rewrite Z.mul_1_l. fold P1.
  destruct (Z.eq_dec m1 0) as [Hz|Hz].
  { rewrite Hz. replace (round_binary64 (0 * 100) P1) with (PFinite 0 0) by reflexivity.
    exists 0. split; [reflexivity|]. split; [lia|]. split; [lia|].
    split; [intros ->; nia|]. rewrite Hz in A. nia. }
  assert (Hlp : Z.log2 P1 = - e1) by (apply Z.log2_pow2; lia).
  assert (Z.log2 (m1 * 100) < - e1 + 7).
  { apply Z.log2_lt_pow2; [lia|]. rewrite Z.pow_add_r by lia. fold P1. nia. }
  destruct (round_binary64_small (m1 * 100) P1) as (e2 & He2l & He2u & R2);
    [lia|lia|lia|].
  rewrite R2. set (P2 := 2 ^ (- e2)) in *.
  set (m2 := round_half_even (m1 * 100 * P2) P1) in *.
  assert (HP2 : 2 ^ 46 <= P2) by (apply Z.pow_le_mono_r; lia).
  pose proof (round_half_even_err (m1 * 100 * P2) P1 ltac:(lia)) as B.
  fold m2 in B.
  assert (Hm2 : 0 <= m2) by (apply round_half_even_nonneg; nia).
  unfold format_1f. rewrite (Z.max_r e2 0) by lia. rewrite (Z.max_l (- e2) 0) by lia.
  rewrite Z.pow_0_r, Z.mul_1_r. fold P2.
  set (y := round_half_even (m2 * 10) P2).
  pose proof (round_half_even_err (m2 * 10) P2 ltac:(lia)) as C. fold y in C.
  exists y. split; [reflexivity|].
  split; [apply round_half_even_nonneg; lia|]. split; [lia|]. split.
  - intros ->. subst m1 m2 y.
    rewrite (Z.mul_comm t P1), round_half_even_exact by lia.
    rewrite <- (Z.mul_assoc P1 100 P2), (Z.mul_comm P1 (100 * P2)),
      round_half_even_exact by lia.
    replace (100 * P2 * 10) with (1000 * P2) by ring.
    apply round_half_even_exact. lia.
  - set (E := 2 * y * t - 2000 * h).
    assert (E * P1 * P2 = t * P1 * (2 * (y * P2 - m2 * 10))
                         + 10 * t * (2 * (m2 * P1 - m1 * 100 * P2))
                         + 1000 * P2 * (2 * (m1 * t - h * P1))) as Id
      by (subst E; ring).
    assert (Z.abs E * P1 * P2 <= t * P1 * P2 + 10 * t * P1 + 1000 * P2 * t).
    { assert (Z.abs (E * P1 * P2) = Z.abs E * P1 * P2) as Ha
        by (rewrite !Z.abs_mul, (Z.abs_eq P1), (Z.abs_eq P2) by lia; reflexivity).
      rewrite <- Ha, Id.
      assert (Z.abs (t * P1 * (2 * (y * P2 - m2 * 10))) <= t * P1 * P2).
      { rewrite Z.abs_mul, (Z.abs_eq (t * P1)) by nia.
        apply Z.mul_le_mono_nonneg_l; [nia | apply Z.abs_le; lia]. }
      assert (Z.abs (10 * t * (2 * (m2 * P1 - m1 * 100 * P2))) <= 10 * t * P1).
      { rewrite Z.abs_mul, (Z.abs_eq (10 * t)) by nia.
        apply Z.mul_le_mono_nonneg_l; [nia | apply Z.abs_le; lia]. }
      assert (Z.abs (1000 * P2 * (2 * (m1 * t - h * P1))) <= 1000 * P2 * t).
      { rewrite Z.abs_mul, (Z.abs_eq (1000 * P2)) by nia.
        apply Z.mul_le_mono_nonneg_l; [nia | apply Z.abs_le; lia]. }
      pose proof (Z.abs_triangle (t * P1 * (2 * (y * P2 - m2 * 10))
                   + 10 * t * (2 * (m2 * P1 - m1 * 100 * P2)))
                   (1000 * P2 * (2 * (m1 * t - h * P1)))).
      pose proof (Z.abs_triangle (t * P1 * (2 * (y * P2 - m2 * 10)))
                   (10 * t * (2 * (m2 * P1 - m1 * 100 * P2)))).
      lia. }
    assert (2 ^ 46 * P1 <= P1 * P2)
      by (rewrite (Z.mul_comm P1 P2); apply Z.mul_le_mono_nonneg_r; lia).
    assert (2 ^ 52 * P2 <= P1 * P2) by (apply Z.mul_le_mono_nonneg_r; lia).
    assert (Hq : 2 ^ 40 * 10 * P1 + 2 ^ 40 * 1000 * P2 <= P1 * P2) by lia.
    assert (t * (2 ^ 40 * 10 * P1 + 2 ^ 40 * 1000 * P2) <= t * (P1 * P2))
      by (apply Z.mul_le_mono_nonneg_l; lia).
    apply (Z.mul_le_mono_pos_r _ _ (P1 * P2)); [nia|].
    lia.
Qed.

(* ================================================================== *)
(** ** The TTL-LRU cache *)

(** C1 (code defect). [set] on a key the cache already holds still runs
    the capacity loop, so re-setting the newest key of a full cache of
    capacity 2 evicts the other key and shrinks the cache to one entry.
    Assigning an existing key in the [OrderedDict] also keeps its old
    position, so the re-set key is not moved to the most-recently-used
    end. *)
Theorem set_existing_key_evicts_other :
  let a := py "a" in let b := py "b" in
  option_map (fun r => keys (fst r))
    (run (new_cache 2 300)
       [OSet a 1%nat None 0; OSet b 2%nat None 0; OSet b 3%nat None 0])
  = Some [b] /\
  option_map (fun r => keys (fst r))
    (run (new_cache 3 300)
       [OSet a 1%nat None 0; OSet b 2%nat None 0; OSet a 3%nat None 0])
  = Some [a; b].
Proof. split; reflexivity. Qed.

(** C4 (code defect). [set(key, value, ttl=0)] stores the entry with
    [ttl or self.default_ttl], the default TTL, because [0] is falsy. A
    later [get] returns the value while the default TTL has not run out. *)
Theorem set_ttl_zero_uses_default_ttl :
  option_map snd
    (run (new_cache 100 300)
       [OSet (py "k") 1%nat (Some 0) 0; OGet (py "k") 1; OGet (py "k") 300])
  = Some [Some 1%nat; Some 1%nat] /\
  (forall V (c c' : LRUCache V) k v now,
     set c k v (Some 0) now = Some c' ->
     od_get k (cache c') = Some (mkEntry v now (default_ttl c) 0)).
Proof.
  split; [reflexivity|].
  intros V c c' k v now H. unfold set in H.
  destruct (evict (max_size c) (cache c)); [|discriminate].
  inversion H. subst. simpl. apply od_get_setitem.
Qed.

(** C5, counterexample: after one [set] and one hitting [get], [stats]
    reports [hits = 1], [misses = 0] and the hit rate as the string
    ["100.0%"], a percentage, not the ratio [h / (h + m) = 1]. *)
Lemma stats_hit_rate_not_ratio :
  match run (new_cache 2 300) [OSet (py "a") 1%nat None 0; OGet (py "a") 0] with
  | Some (c, _) =>
      option_map (fun s => (st_hits s, st_misses s, st_hit_rate s)) (stats c)
      = Some (1%nat, 0%nat, py "100.0%")
  | None => False
  end.
Proof. vm_compute. reflexivity. Qed.

(** C5, as amended: after any sequence of [set] / [get] calls on a new
    cache, [stats] returns the size, [max_size], [hits] = number of [get]
    calls that returned a value and [misses] = number that returned
    nothing. [hit_rate] is [f"{hit_rate:.1f}%"] of the float
    [hits / (hits + misses) * 100] (the [int] [0] when there was no
    [get]): the digits of an integer [y / 10], a point, the digit
    [y mod 10] and ["%"], where [y / 10] is within [(1 + 2^-40) / 20] of
    the percentage [100 * h / (h + m)]
    ([2^40 * |2 y (h + m) - 2000 h| <= (2^40 + 1) (h + m)]); it reads
    ["0.0%"] when [h = 0] and ["100.0%"] when [m = 0 < h]. *)
Theorem stats_reports_hit_percentage {V} (max dttl : Z) (ops : list (op V))
  (c : LRUCache V) (rs : list (option V)) :
  run (new_cache max dttl) ops = Some (c, rs) ->
  let h := length (filter is_hit rs) in
  let m := length (filter (fun r => negb (is_hit r)) rs) in
  exists s y, stats c = Some s /\
    st_size s = size c /\ st_max_size s = max /\
    st_hits s = h /\ st_misses s = m /\
    st_hit_rate s = str_of_nonneg (y / 10) ++ py "." ++ str_of_nonneg (y mod 10)
                    ++ py "%" /\
    0 <= y /\
    (h = 0%nat -> st_hit_rate s = py "0.0%") /\
    ((0 < h)%nat -> m = 0%nat -> st_hit_rate s = py "100.0%") /\
    ((0 < h + m)%nat ->
     2 ^ 40 * Z.abs (2 * y * Z.of_nat (h + m) - 2000 * Z.of_nat h)
     <= (2 ^ 40 + 1) * Z.of_nat (h + m)).
Proof.
  intros R. destruct (run_counts _ _ _ _ R) as (H1 & H2 & H3).
  simpl in H1, H2, H3. intros h m. fold h in H1. fold m in H2.
  unfold stats. rewrite H1, H2, H3.
  destruct (0 <? h + m)%nat eqn:T.
  - apply Nat.ltb_lt in T.
    destruct (hit_rate_digits (Z.of_nat h) (Z.of_nat (h + m)))
      as (y & F & Hy & Hz & Hf & Hb); [lia|lia|].
    destruct (int_truediv (Z.of_nat h) (Z.of_nat (h + m))) as [q|];
      simpl in F |- *; [|discriminate].
    injection F as F. rewrite F.
    eexists. exists y. split; [reflexivity|]. simpl.
    split; [reflexivity|]. split; [reflexivity|]. split; [reflexivity|].
    split; [reflexivity|]. split; [rewrite <- app_assoc; reflexivity|].
    split; [exact Hy|]. split; [|split; [|intros _; exact Hb]].
    + intros E. rewrite Hz by (rewrite E; reflexivity). reflexivity.
    + intros _ E. rewrite Hf by (rewrite E, Nat.add_0_r; reflexivity). reflexivity.
  - apply Nat.ltb_ge in T.
    eexists. exists 0. split; [reflexivity|]. simpl.
    split; [reflexivity|]. split; [reflexivity|]. split; [reflexivity|].
    split; [reflexivity|]. split; [reflexivity|]. split; [lia|].
    split; [reflexivity|]. split; intros; lia.
Qed.

Lemma stats_reports_hit_percentage_witness :
  match run (new_cache 2 300) [OSet (py "a") 1%nat None 0; OGet (py "a") 0;
                               OGet (py "b") 0; OGet (py "c") 0] with
  | Some (c, rs) =>
      rs = [Some 1%nat; None; None] /\
      option_map st_hit_rate (stats c) = Some (py "33.3%") /\
      exists s y, stats c = Some s /\
        st_hit_rate s = str_of_nonneg (y / 10) ++ py "." ++ str_of_nonneg (y mod 10)
                        ++ py "%" /\
        2 ^ 40 * Z.abs (2 * y * 3 - 2000 * 1) <= (2 ^ 40 + 1) * 3
  | None => False
  end.
Proof.
  destruct (run (new_cache 2 300) _) as [[c rs]|] eqn:R;
    [|vm_compute in R; discriminate R].
  destruct (stats_reports_hit_percentage 2 300 _ c rs R)
    as (s & y & Hs & _ & _ & _ & _ & Hr & _ & _ & _ & Hb).
  vm_compute in R. injection R as <- <-.
  split; [reflexivity|]. split; [vm_compute; reflexivity|].
  exists s, y. split; [exact Hs|]. split; [exact Hr|].
  exact (Hb ltac:(simpl; lia)).
Defined.

(** C6: for a cache of capacity [max > 0], every sequence of [set] and
    [get] calls (any keys, values, TTLs and clock readings) runs without
    raising and ends with [size <= max] and no two entries sharing a key.
    Every prefix of a sequence is itself a sequence, so this holds after
    each call. *)
Theorem lru_size_le_capacity_unique_keys {V} (max dttl : Z) (ops : list (op V)) :
  0 < max ->
  exists c rs, run (new_cache max dttl) ops = Some (c, rs) /\
    Z.of_nat (size c) <= max /\ NoDup (keys c).
Proof.
  intros Hm.
  destruct (run_inv (new_cache max dttl) ops) as (c & rs & R & [Hl Hnd] & Hmax);
    [exact Hm | split; [simpl; lia | constructor] |].
  exists c, rs. split; [exact R|]. simpl in Hmax. rewrite Hmax in Hl. auto.
Qed.

Lemma lru_size_le_capacity_unique_keys_witness :
  exists c rs,
    run (new_cache 2 300)
      [OSet (py "a") 1%nat None 0; OSet (py "b") 2%nat None 0;
       OSet (py "c") 3%nat None 0; OGet (py "a") 1] = Some (c, rs) /\
    Z.of_nat (size c) <= 2 /\ NoDup (keys c).
Proof. apply lru_size_le_capacity_unique_keys. lia. Defined.




(* ================================================================== *)
(** ** The keyed response cache *)

(** C10: right after [set_vacancy_analysis(text, model, result)] returns,
    [get_vacancy_analysis(text, model)] at the same clock reading returns
    [result]: both derive the same key, and the fresh entry is present and
    not expired. *)
Theorem vacancy_analysis_roundtrip {V} (c c' : LRUCache V)
  (vacancy_text model : pystr) (result : V) (now : Z) :
  set_vacancy_analysis c vacancy_text model result now = Some c' ->
  exists c'', get_vacancy_analysis c' vacancy_text model now = Some (Some result, c'').
Proof.
  unfold set_vacancy_analysis, get_vacancy_analysis.
  destruct (make_key vacancy_text model) as [key|]; [|discriminate].
  unfold set. destruct (evict (max_size c) (cache c)) as [d|]; [|discriminate].
  intros H. inversion H. subst c'. clear H.
  unfold get. simpl. rewrite od_get_setitem.
  unfold is_expired. simpl. rewrite Z.sub_diag. simpl.
  eexists. reflexivity.
Qed.

Lemma vacancy_analysis_roundtrip_witness :
  match set_vacancy_analysis (new_ai_cache 200) (py "Python developer")
          (py "gpt") 7%nat 0 with
  | Some c' => option_map fst (get_vacancy_analysis c' (py "Python developer")
                                 (py "gpt") 0) = Some (Some 7%nat)
  | None => False
  end.
Proof.
  destruct (set_vacancy_analysis _ _ _ _ _) as [c'|] eqn:E;
    [|vm_compute in E; discriminate E].
  destruct (vacancy_analysis_roundtrip _ _ _ _ _ _ E) as [c'' H].
  rewrite H. reflexivity.
Defined.

Lemma firstn_app_long {A} (n : nat) (l x : list A) :
  (n <= length l)%nat -> firstn n (l ++ x) = firstn n l.
Proof.
  intros H. rewrite firstn_app. replace (n - length l)%nat with 0%nat by lia.
  simpl. apply app_nil_r.
Qed.

(** Once the vacancy text has at least 499 characters, the second
    [[:500]] in [_make_key] cuts the combined string before the resume
    text starts: the key no longer depends on the resume. *)
Lemma recruiter_key_long_vacancy (v r1 r2 model : pystr) :
  (499 <= length v)%nat ->
  recruiter_key v r1 model = recruiter_key v r2 model.
Proof.
  intros H. unfold recruiter_key, make_key, recruiter_combined, py_prefix.
  assert (L : (500 <= length (firstn 500 v ++ py "|"))%nat).
  { rewrite length_app, length_firstn. change (length (py "|")) with 1%nat.
    pose proof (Nat.min_spec 500 (length v)). lia. }
  rewrite !app_assoc, !(firstn_app_long _ _ _ L). reflexivity.
Qed.

(** C3 (code defect). [get_recruiter_analysis] / [set_recruiter_analysis]
    build [f"{vacancy_text[:500]}|{resume_text[:500]}"], and [_make_key]
    hashes only the first 500 characters of that. With a 500-character
    vacancy text, two resume texts that differ in their first 500
    characters get the same key, and the second request returns the
    analysis cached for the first. *)
Theorem recruiter_key_ignores_resume_text :
  let v := repeat 97 500 in
  py_prefix 500 (py "senior") <> py_prefix 500 (py "junior") /\
  recruiter_key v (py "senior") (py "gpt") = recruiter_key v (py "junior") (py "gpt") /\
  match set_recruiter_analysis (new_ai_cache 200) v (py "senior") (py "gpt") 1%nat 0 with
  | Some c' =>
      option_map fst (get_recruiter_analysis c' v (py "junior") (py "gpt") 0)
      = Some (Some 1%nat)
  | None => False
  end.
Proof.
  intros v. split; [vm_compute; discriminate|].
  split; [apply recruiter_key_long_vacancy; subst v; rewrite repeat_length; lia|].
  vm_compute. reflexivity.
Qed.

Section CachedCall.

Context {V : Type}.
Implicit Types (d : odict V) (c : LRUCache V).

Lemma od_get_del k d : od_get k (od_del k d) = None.
Proof.
  induction d as [|[k' e] d IH]; simpl; [reflexivity|].
  destruct (key_eqb k k') eqn:E; simpl; [exact IH|]. rewrite E. exact IH.
Qed.


End CachedCall.




(* ================================================================== *)
(** ** The connection pool *)

Lemma create_connections_spec (k : nat) (p : DatabasePool.Pool) :
  (DatabasePool.pool_size p = 0 \/
   DatabasePool.available p + k <= DatabasePool.pool_size p)%nat ->
  DatabasePool.create_connections k p =
  DatabasePool.Done
    (DatabasePool.mkPool (DatabasePool.pool_size p) (DatabasePool.initialized p)
       (DatabasePool.locked p) (DatabasePool.connections p + k)
       (DatabasePool.available p + k)).
Proof.
  revert p. induction k as [|k IH]; intros [ps ini lk conns avail] H; simpl in *.
  - rewrite !Nat.add_0_r. reflexivity.
  - unfold DatabasePool.put. simpl.
    destruct ((0 <? ps)%nat && (ps <=? avail)%nat) eqn:E.
    + apply andb_true_iff in E as [E1 E2].
      apply Nat.ltb_lt in E1. apply Nat.leb_le in E2. lia.
    + rewrite IH by (simpl; lia). simpl. f_equal. f_equal; lia.
Qed.

(** C2 (code defect). [initialize] creates the [pool_size] connections
    while holding [_lock], then opens [async with self.acquire()] before
    it sets [_initialized]. [acquire] sees [_initialized] false and calls
    [initialize] again, which waits on [_lock], held by the same task:
    the first call never returns and the pool is never marked ready. With
    any recursion bound of at least 3 the model reaches that wait. *)
Theorem initialize_first_call_deadlocks (n fuel : nat) :
  DatabasePool.initialize fuel (DatabasePool.new_pool n) =
  if (fuel <? 3)%nat then DatabasePool.OutOfFuel
  else DatabasePool.Blocked (DatabasePool.mkPool n false true n n).
Proof.
  assert (C : DatabasePool.create_connections n
                (DatabasePool.with_lock true (DatabasePool.new_pool n))
              = DatabasePool.Done (DatabasePool.mkPool n false true n n)).
  { rewrite create_connections_spec; [reflexivity | simpl; lia]. }
  destruct fuel as [|[|[|f]]]; [reflexivity| | |];
    cbn -[DatabasePool.create_connections]; rewrite C; reflexivity.
Qed.

(* ================================================================== *)
(** ** The improvement-task registry *)

(** C9 (code defect). [cleanup_improvement_tasks(max_completed)] removes
    [completed[:-max_completed]]. For [max_completed = 0] that slice is
    [completed[:0]], empty: nothing is removed, although more than 0
    finished entries exist. With [max_completed = 1] the same registry
    keeps exactly the newest finished entry and the running one. *)
Theorem cleanup_keep_zero_removes_nothing :
  (forall r, TaskRegistry.cleanup_improvement_tasks r 0 = r) /\
  let r := [("a", "completed"); ("b", "running"); ("c", "error");
            ("d", "completed")]%string in
  TaskRegistry.cleanup_improvement_tasks r 0 = r /\
  TaskRegistry.cleanup_improvement_tasks r 1
  = [("b", "running"); ("d", "completed")]%string.
Proof.
  split; [|split; reflexivity].
  intros r. unfold TaskRegistry.cleanup_improvement_tasks.
  destruct (_ >? 0); [|reflexivity].
  unfold TaskRegistry.py_slice_to. simpl.
  rewrite Z.min_l by lia. reflexivity.
Qed.

(* ================================================================== *)
(** * Further properties of the code *)

(** ** [LRUCache]: delete, sweep, TTL and capacity edge cases *)

Section LRUExtra.

Context {V : Type}.
Implicit Types (d : odict V) (c : LRUCache V).

Lemma od_get_del_other k k' d :
  k' <> k -> od_get k' (od_del k d) = od_get k' d.
Proof.
  intros Hne. induction d as [|[k'' e] d IH]; simpl; [reflexivity|].
  destruct (key_eqb k k'') eqn:E; simpl.
  - apply key_eqb_true in E. subst k''.
    destruct (key_eqb k' k) eqn:E'; [apply key_eqb_true in E'; congruence|].
    exact IH.
  - rewrite IH. reflexivity.
Qed.

Lemma filter_keys_length k (l : list pystr) :
  NoDup l -> In k l ->
  Datatypes.S (length (filter (fun x => negb (key_eqb k x)) l)) = length l.
Proof.
  induction l as [|x l IH]; simpl; [tauto|]. intros Hnd Hin.
  inversion Hnd as [|? ? Hx Hnd']; subst.
  destruct (key_eqb k x) eqn:E; simpl.
  - apply key_eqb_true in E. subst x. f_equal.
    rewrite filter_ext_in with (g := fun _ => true).
    + rewrite filter_true. reflexivity.
    + intros a Ha. destruct (key_eqb k a) eqn:E'; [|reflexivity].
      apply key_eqb_true in E'. subst. contradiction.
  - destruct Hin as [Hin|Hin]; [subst; rewrite key_eqb_refl in E; discriminate|].
    rewrite IH; auto.
Qed.

Lemma existsb_key_in k d :
  existsb (fun p => key_eqb k (fst p)) d = true <-> In k (map fst d).
Proof.
  split.
  - intros H. apply existsb_exists in H as [[k' e] [Hin Hk]].
    apply key_eqb_true in Hk. simpl in Hk. subst. apply in_map_iff.
    exists (k', e). auto.
  - intros H. destruct (existsb _ d) eqn:E; [reflexivity|].
    apply existsb_key_false in E. contradiction.
Qed.

Lemma nodup_fst_eq d p q :
  NoDup (map fst d) -> In p d -> In q d -> fst p = fst q -> p = q.
Proof.
  induction d as [|x d IH]; simpl; [tauto|]. intros Hnd Hp Hq Hk.
  inversion Hnd as [|? ? Hx Hnd']; subst.
  destruct Hp as [Hp|Hp], Hq as [Hq|Hq]; subst; auto.
  - exfalso. apply Hx. rewrite Hk. apply in_map. exact Hq.
  - exfalso. apply Hx. rewrite <- Hk. apply in_map. exact Hp.
Qed.

Lemma filter_filter_and {A} (f g : A -> bool) (l : list A) :
  filter f (filter g l) = filter (fun x => g x && f x) l.
Proof.
  induction l as [|x l IH]; simpl; [reflexivity|].
  destruct (g x); simpl; [destruct (f x)|]; rewrite ?IH; reflexivity.
Qed.

Lemma fold_od_del ks d :
  fold_left (fun d k => od_del k d) ks d =
  filter (fun p => negb (existsb (fun k => key_eqb k (fst p)) ks)) d.
Proof.
  revert d. induction ks as [|k ks IH]; intros d; simpl.
  - symmetry. apply filter_true.
  - rewrite IH. unfold od_del. rewrite filter_filter_and.
    apply filter_ext. intros [k' e]. simpl.
    destruct (key_eqb k k'); reflexivity.
Qed.

(** The sweep leaves exactly the entries that are not expired, in their
    order (keys are unique in the dict). *)
Lemma cleanup_expired_cache c now :
  NoDup (keys c) ->
  cache (snd (cleanup_expired c now)) =
  filter (fun p => negb (is_expired now (snd p))) (cache c).
Proof.
  intros Hnd. unfold cleanup_expired. simpl. rewrite fold_od_del.
  apply filter_ext_in. intros p Hp. f_equal.
  destruct (is_expired now (snd p)) eqn:Ex.
  - apply existsb_exists. exists (fst p). split; [|apply key_eqb_refl].
    apply in_map. apply filter_In. auto.
  - destruct (existsb _ _) eqn:E; [|reflexivity].
    apply existsb_exists in E as [k [Hk Hkk]]. apply key_eqb_true in Hkk.
    apply in_map_iff in Hk as [q [Hq Hqin]]. apply filter_In in Hqin as [Hqin Hqe].
    assert (q = p) by (apply (nodup_fst_eq (cache c)); auto; congruence).
    subst q. congruence.
Qed.

Lemma od_get_filter k d (f : pystr * CacheEntry V -> bool) :
  NoDup (map fst d) ->
  od_get k (filter f d) =
  match od_get k d with
  | Some e => if f (k, e) then Some e else None
  | None => None
  end.
Proof.
  induction d as [|[k' e] d IH]; simpl; [reflexivity|]. intros Hnd.
  inversion Hnd as [|? ? Hx Hnd']; subst.
  destruct (key_eqb k k') eqn:E.
  - apply key_eqb_true in E. subst k'.
    destruct (f (k, e)) eqn:F; simpl; [rewrite key_eqb_refl; reflexivity|].
    rewrite IH by exact Hnd'.
    destruct (od_get k d) eqn:G; [|reflexivity].
    exfalso. apply Hx. exact (od_get_some_in _ _ _ G).
  - destruct (f (k', e)); simpl; rewrite ?E; apply IH; exact Hnd'.
Qed.

End LRUExtra.

(** X1. [delete(key)] returns whether the key was present. Afterwards
    the key is gone (a [get] misses), every other key maps to what it
    mapped to before, the size drops by exactly one when the key was
    present, and the hit and miss counters are untouched. *)
Theorem delete_removes_only_key {V} (c : LRUCache V) (k : pystr) :
  NoDup (keys c) ->
  let (b, c') := delete c k in
  (b = true <-> In k (keys c)) /\
  (forall now, fst (get c' k now) = None) /\
  (forall k', k' <> k -> od_get k' (cache c') = od_get k' (cache c)) /\
  (if b then Datatypes.S (size c') = size c else size c' = size c) /\
  hits c' = hits c /\ misses c' = misses c.
Proof.
  intros Hnd. unfold delete.
  destruct (existsb (fun p => key_eqb k (fst p)) (cache c)) eqn:E.
  - pose proof E as Hin. apply existsb_key_in in Hin.
    split; [tauto|]. split.
    { intros now. unfold get. simpl. rewrite od_get_del. reflexivity. }
    split; [intros k' Hk; simpl; apply od_get_del_other; congruence|].
    split; [|simpl; auto].
    unfold size. simpl. rewrite <- (length_map fst (od_del k (cache c))).
    rewrite od_del_keys. rewrite (filter_keys_length k (map fst (cache c)) Hnd Hin).
    apply length_map.
  - pose proof E as Hn. apply existsb_key_false in Hn.
    split; [split; [discriminate|intros H; contradiction]|].
    split; [|split; [reflexivity|auto]].
    intros now. unfold get.
    destruct (od_get k (cache c)) eqn:G; [|reflexivity].
    exfalso. apply Hn. exact (od_get_some_in _ _ _ G).
Qed.

Lemma delete_removes_only_key_witness :
  let c := mkCache 3 300 [(py "a", mkEntry 1%nat 0 300 0);
                          (py "b", mkEntry 2%nat 0 300 0)] 0 0 in
  let (b, c') := delete c (py "a") in
  (b = true <-> In (py "a") (keys c)) /\
  (forall now, fst (get c' (py "a") now) = None) /\
  (forall k', k' <> py "a" -> od_get k' (cache c') = od_get k' (cache c)) /\
  (if b then Datatypes.S (size c') = size c else size c' = size c) /\
  hits c' = hits c /\ misses c' = misses c.
Proof.
  apply delete_removes_only_key. simpl.
  constructor; [intros [H|[]]; discriminate H|constructor; [tauto|constructor]].
Defined.

(** X2. [cleanup_expired(now)] removes exactly the entries expired at
    [now], keeps the others in their least-recently-used order, returns
    how many it removed (old size = new size + count), and never changes
    what a [get] at the same instant returns for any key. *)
Theorem cleanup_expired_sound {V} (c : LRUCache V) (now : Z) :
  NoDup (keys c) ->
  let (n, c') := cleanup_expired c now in
  cache c' = filter (fun p => negb (is_expired now (snd p))) (cache c) /\
  size c = (size c' + n)%nat /\
  (forall k, fst (get c' k now) = fst (get c k now)).
Proof.
  intros Hnd. pose proof (cleanup_expired_cache c now Hnd) as Hc.
  destruct (cleanup_expired c now) as [n c'] eqn:E.
  simpl in Hc. split; [exact Hc|]. split.
  - unfold size. rewrite Hc. unfold cleanup_expired in E.
    injection E as <- _. rewrite length_map.
    pose proof (filter_length (fun p => is_expired now (snd p)) (cache c)). lia.
  - intros k. unfold get. rewrite Hc, od_get_filter by exact Hnd.
    destruct (od_get k (cache c)) as [e|]; [|reflexivity]. simpl.
    destruct (is_expired now e) eqn:X; simpl; rewrite ?X; reflexivity.
Qed.

Lemma cleanup_expired_sound_witness :
  let c := mkCache 3 300 [(py "a", mkEntry 1%nat 0 10 0);
                          (py "b", mkEntry 2%nat 5 300 0)] 0 0 in
  let (n, c') := cleanup_expired c 20 in
  cache c' = filter (fun p => negb (is_expired 20 (snd p))) (cache c) /\
  size c = (size c' + n)%nat /\
  (forall k, fst (get c' k 20) = fst (get c k 20)).
Proof.
  apply cleanup_expired_sound. simpl.
  constructor; [intros [H|[]]; discriminate H|constructor; [tauto|constructor]].
Defined.

(** ** [LRUCache]: capacity, TTL window and entry lifetime *)

Section LRUExtra2.

Context {V : Type}.
Implicit Types (d : odict V) (c : LRUCache V).

Lemma evict_suffix max d d' :
  evict max d = Some d' -> 0 < max /\ exists pre, d = pre ++ d'.
Proof.
  revert d'. induction d as [|x d IH]; intros d' H; simpl in H.
  - destruct (0 >=? max) eqn:E; [discriminate|]. injection H as <-.
    rewrite Z.geb_leb in E. apply Z.leb_gt in E.
    split; [lia|exists []; reflexivity].
  - destruct (Z.pos (Pos.of_succ_nat (length d)) >=? max) eqn:E.
    + destruct (IH d' H) as [Hm [pre ->]]. split; [exact Hm|].
      exists (x :: pre). reflexivity.
    + injection H as <-. rewrite Z.geb_leb in E. apply Z.leb_gt in E.
      split; [lia|exists []; reflexivity].
Qed.

Lemma evict_nonpos max d : max <= 0 -> evict max d = None.
Proof.
  intros Hm. induction d as [|x d IH]; simpl.
  - destruct (0 >=? max) eqn:E; [reflexivity|].
    rewrite Z.geb_leb in E. apply Z.leb_gt in E. lia.
  - destruct (Z.pos (Pos.of_succ_nat (length d)) >=? max) eqn:E; [exact IH|].
    rewrite Z.geb_leb in E. apply Z.leb_gt in E. lia.
Qed.

Lemma set_entry c k v t now c' :
  set c k v t now = Some c' ->
  od_get k (cache c') = Some (mkEntry v now (ttl_or_default c t) 0).
Proof.
  unfold set. destruct (evict _ _); [|discriminate]. intros H.
  injection H as <-. simpl. apply od_get_setitem.
Qed.

Lemma get_entry_window k e c now :
  od_get k (cache c) = Some e ->
  fst (get c k now) =
  (if now - created_at e <=? ttl e then Some (value e) else None).
Proof.
  intros G. unfold get. rewrite G. unfold is_expired. rewrite Z.gtb_ltb.
  destruct (Z.ltb_spec (ttl e) (now - created_at e)),
           (Z.leb_spec (now - created_at e) (ttl e)); simpl;
    try reflexivity; lia.
Qed.

Lemma od_get_app_other k k' e d :
  k' <> k -> od_get k' (d ++ [(k, e)]) = od_get k' d.
Proof.
  intros Hne. induction d as [|[k'' e''] d IH]; simpl.
  - destruct (key_eqb k' k) eqn:E; [apply key_eqb_true in E; congruence|reflexivity].
  - destruct (key_eqb k' k''); [reflexivity|exact IH].
Qed.

Lemma od_get_setitem_other k k' e d :
  k' <> k -> od_get k' (od_setitem k e d) = od_get k' d.
Proof.
  intros Hne. unfold od_setitem. destruct (existsb _ d).
  - induction d as [|[k'' e''] d IH]; simpl; [reflexivity|].
    destruct (key_eqb k k'') eqn:E1; simpl.
    + apply key_eqb_true in E1. subst k''.
      destruct (key_eqb k' k) eqn:E2; [apply key_eqb_true in E2; congruence|].
      exact IH.
    + destruct (key_eqb k' k''); [reflexivity|exact IH].
  - apply od_get_app_other. exact Hne.
Qed.

Lemma od_get_suffix k pre d :
  NoDup (map fst (pre ++ d)) ->
  od_get k d = None \/ od_get k d = od_get k (pre ++ d).
Proof.
  induction pre as [|[k' e'] pre IH]; simpl; intros Hnd; [right; reflexivity|].
  inversion Hnd as [|? ? Hx Hnd']; subst.
  destruct (key_eqb k k') eqn:E; [|apply IH; exact Hnd'].
  left. apply key_eqb_true in E. subst k'.
  destruct (od_get k d) eqn:G; [|reflexivity].
  exfalso. apply Hx. rewrite map_app. apply in_or_app. right.
  exact (od_get_some_in _ _ _ G).
Qed.

Lemma set_nodup c k v t now c' :
  set c k v t now = Some c' -> NoDup (keys c) -> NoDup (keys c').
Proof.
  unfold set. destruct (evict _ _) as [d|] eqn:E; [|discriminate].
  intros H Hnd. injection H as <-.
  destruct (evict_suffix _ _ _ E) as [_ [pre Hd]]. unfold keys in *. simpl.
  rewrite Hd, map_app in Hnd. apply NoDup_app_remove_l in Hnd.
  exact (proj1 (od_setitem_inv _ _ _ Hnd)).
Qed.

Lemma set_other_entry c k k' v t now c' :
  set c k v t now = Some c' -> NoDup (keys c) -> k' <> k ->
  od_get k' (cache c') = None \/ od_get k' (cache c') = od_get k' (cache c).
Proof.
  unfold set. destruct (evict _ _) as [d|] eqn:E; [|discriminate].
  intros H Hnd Hne. injection H as <-. simpl.
  rewrite od_get_setitem_other by exact Hne.
  destruct (evict_suffix _ _ _ E) as [_ [pre Hd]].
  unfold keys in Hnd. rewrite Hd in Hnd |- *. apply od_get_suffix. exact Hnd.
Qed.

Lemma get_nodup c k now : NoDup (keys c) -> NoDup (keys (snd (get c k now))).
Proof.
  unfold keys, get. intros Hnd.
  destruct (od_get k (cache c)) as [e|]; [|exact Hnd].
  destruct (is_expired now e); simpl; [apply od_del_nodup, Hnd|].
  rewrite map_app. simpl.
  apply NoDup_app; [apply od_del_nodup, Hnd | constructor; [tauto|constructor] |].
  intros a Ha [Hb|[]]. subst. exact (od_del_notin _ _ Ha).
Qed.

Lemma get_other_entry c k k' now :
  k' <> k -> od_get k' (cache (snd (get c k now))) = od_get k' (cache c).
Proof.
  intros Hne. unfold get. destruct (od_get k (cache c)) as [e|]; [|reflexivity].
  destruct (is_expired now e); simpl; [apply od_get_del_other; exact Hne|].
  rewrite od_get_app_other by exact Hne. apply od_get_del_other. exact Hne.
Qed.

Lemma get_same_entry c k now :
  od_get k (cache (snd (get c k now))) =
  match od_get k (cache c) with
  | Some e => if is_expired now e then None else Some (touch e)
  | None => None
  end.
Proof.
  unfold get. destruct (od_get k (cache c)) as [e|] eqn:G; [|exact G].
  destruct (is_expired now e); simpl; [apply od_get_del|].
  apply od_get_app_last. apply od_del_notin.
Qed.

Lemma run_same_life c ops k e c' rs :
  NoDup (keys c) -> Forall (no_set_of k) ops -> run c ops = Some (c', rs) ->
  same_life k e c -> same_life k e c'.
Proof.
  revert c rs. induction ops as [|o ops IH]; intros c rs Hnd Hf Hr Hs.
  - simpl in Hr. injection Hr as <- _. exact Hs.
  - inversion Hf as [|? ? Ho Hf']; subst. destruct o as [k' v t now|k' now]; simpl in Hr.
    + destruct (set c k' v t now) as [c1|] eqn:S; [|discriminate].
      apply (IH c1 rs); [exact (set_nodup _ _ _ _ _ _ S Hnd) | exact Hf' | exact Hr |].
      unfold same_life in *. simpl in Ho.
      destruct (set_other_entry _ _ _ _ _ _ _ S Hnd (not_eq_sym Ho)) as [G|G];
        rewrite G; [exact I | exact Hs].
    + destruct (get c k' now) as [r c1] eqn:G.
      destruct (run c1 ops) as [[c'' rs'']|] eqn:R; [|discriminate].
      injection Hr as -> _.
      assert (c1 = snd (get c k' now)) as Hc1 by (rewrite G; reflexivity).
      apply (IH c1 rs''); [subst c1; apply get_nodup, Hnd | exact Hf' | exact R |].
      unfold same_life in *. subst c1.
      destruct (list_eq_dec Z.eq_dec k k') as [<-|Hne].
      * rewrite get_same_entry. destruct (od_get k (cache c)) as [e'|]; [|exact I].
        destruct (is_expired now e'); [exact I|exact Hs].
      * rewrite get_other_entry by exact Hne. exact Hs.
Qed.

End LRUExtra2.

(** X3. [set(key, value, ttl)] at time [now] followed by [get(key)] at
    [now + dt]: the value comes back exactly while [dt <= ttl] (the TTL
    being [ttl], or [default_ttl] for [None] or [0]); from then on the
    entry has been removed from the dict. *)
Theorem set_then_get_ttl_window {V} (c c' : LRUCache V) k v t now (dt : Z) :
  set c k v t now = Some c' ->
  fst (get c' k (now + dt)) =
    (if dt <=? ttl_or_default c t then Some v else None) /\
  (ttl_or_default c t < dt ->
   od_get k (cache (snd (get c' k (now + dt)))) = None).
Proof.
  intros H. pose proof (set_entry _ _ _ _ _ _ H) as G.
  rewrite (get_entry_window _ _ _ _ G). simpl.
  replace (now + dt - now) with dt by lia. split; [reflexivity|].
  intros Hlt. rewrite get_same_entry, G. unfold is_expired. simpl.
  replace (now + dt - now) with dt by lia.
  destruct (Z.gtb_spec dt (ttl_or_default c t)); [reflexivity|lia].
Qed.

Lemma set_then_get_ttl_window_witness :
  set (new_cache 10 300) (py "k") 1%nat (Some 60) 100
  = Some (mkCache 10 300 [(py "k", mkEntry 1%nat 100 60 0)] 0 0) /\
  fst (get (mkCache 10 300 [(py "k", mkEntry 1%nat 100 60 0)] 0 0) (py "k") (100 + 61)) =
    (if 61 <=? ttl_or_default (@new_cache nat 10 300) (Some 60) then Some 1%nat else None) /\
  (ttl_or_default (@new_cache nat 10 300) (Some 60) < 61 ->
   od_get (py "k") (cache (snd (get (mkCache 10 300 [(py "k", mkEntry 1%nat 100 60 0)] 0 0)
                               (py "k") (100 + 61)))) = None).
Proof.
  split; [reflexivity|].
  apply (set_then_get_ttl_window (new_cache 10 300)). reflexivity.
Defined.

(** X4. [set] raises (on [next(iter(...))] of an empty dict inside the
    eviction loop) exactly when [max_size <= 0]; with a positive
    capacity it always succeeds. *)
Theorem set_raises_iff_nonpositive_capacity {V} (c : LRUCache V) k v t now :
  set c k v t now = None <-> max_size c <= 0.
Proof.
  unfold set. split.
  - destruct (evict (max_size c) (cache c)) eqn:E; [discriminate|]. intros _.
    destruct (Z.le_gt_cases (max_size c) 0) as [H|H]; [exact H|].
    destruct (evict_spec _ (cache c) H) as (pre & d' & E' & _). congruence.
  - intros H. rewrite (evict_nonpos _ _ H). reflexivity.
Qed.

(** X5. Hits never extend an entry's life: [touch] only counts, and
    [created_at] and [ttl] are fixed when the key is stored. Through any
    sequence of calls that does not store [k] again (gets of any key,
    sets of other keys), once [now - created_at > ttl] every [get(k)]
    misses. *)
Theorem hits_do_not_extend_lifetime {V} (c c' : LRUCache V) ops k e rs :
  NoDup (keys c) -> od_get k (cache c) = Some e ->
  Forall (no_set_of k) ops -> run c ops = Some (c', rs) ->
  forall now, ttl e < now - created_at e -> fst (get c' k now) = None.
Proof.
  intros Hnd G Hf Hr now Hlt.
  assert (same_life k e c) as Hs by (unfold same_life; rewrite G; auto).
  pose proof (run_same_life _ _ _ _ _ _ Hnd Hf Hr Hs) as Hs'.
  unfold same_life in Hs'. destruct (od_get k (cache c')) as [e'|] eqn:G'.
  - rewrite (get_entry_window _ _ _ _ G').
    destruct Hs' as (_ & -> & ->). destruct (Z.leb_spec (now - created_at e) (ttl e));
      [lia|reflexivity].
  - unfold get. rewrite G'. reflexivity.
Qed.

Lemma hits_do_not_extend_lifetime_witness :
  let c := mkCache 10 300 [(py "k", mkEntry 1%nat 0 10 0)] 0 0 in
  let ops := [OGet (py "k") 4; OSet (py "j") 2%nat None 6; OGet (py "k") 9] in
  exists c' rs, run c ops = Some (c', rs) /\ rs = [Some 1%nat; Some 1%nat] /\
    fst (get c' (py "k") 11) = None.
Proof.
  intros c ops. eexists _, _. split; [reflexivity|]. split; [reflexivity|].
  eapply (hits_do_not_extend_lifetime c _ ops (py "k") (mkEntry 1%nat 0 10 0)).
  - simpl. constructor; [intros []|constructor].
  - reflexivity.
  - repeat constructor. simpl. discriminate.
  - reflexivity.
  - simpl. lia.
Defined.

(** X6. [cached_ai_call] memoizes: once a call has run [func] and stored
    its non-[None] result at time [ns] under [ttl] (the cache's default
    TTL when [ttl] is [0]), any later call with the same key, whatever its
    own [ttl] and [func], at a time [ng2] within that TTL of [ns] returns
    that result without calling [func]. *)
Theorem cached_ai_call_memoizes {V} (c c2 : LRUCache V) key ttl (r : V) ng ns
  ttl2 (result' : option V) ng2 ns2 :
  cached_ai_call c key ttl (Some r) ng ns = Some (true, Some r, c2) ->
  ng2 - ns <= (if ttl =? 0 then default_ttl c else ttl) ->
  cached_ai_call c2 key ttl2 result' ng2 ns2
  = Some (false, Some r, snd (get c2 key ng2)).
Proof.
  intros H Hw. unfold cached_ai_call in H.
  assert (default_ttl (snd (get c key ng)) = default_ttl c) as Hd.
  { unfold get. destruct (od_get key (cache c)) as [e|];
      [destruct (is_expired ng e)|]; reflexivity. }
  destruct (get c key ng) as [cached c1]. simpl in Hd.
  destruct cached as [v|]; [discriminate|].
  destruct (set c1 key r (Some ttl) ns) as [c2'|] eqn:S; [|discriminate].
  inversion H; subst c2'; clear H.
  pose proof (set_entry _ _ _ _ _ _ S) as G.
  unfold ttl_or_default in G. rewrite Hd in G.
  pose proof (get_entry_window _ _ _ ng2 G) as W. simpl in W.
  rewrite (proj2 (Z.leb_le _ _) Hw) in W.
  unfold cached_ai_call. destruct (get c2 key ng2) as [res c3]. simpl in W |- *.
  subst res. reflexivity.
Qed.

Lemma cached_ai_call_memoizes_witness :
  exists c2,
    (cached_ai_call (new_cache 10 300) (py "k") 0 (Some 1%nat) 0 0
     = Some (true, Some 1%nat, c2) /\ 200 - 0 <= (if 0 =? 0 then 300 else 0)) /\
    cached_ai_call c2 (py "k") 60 None 200 205
    = Some (false, Some 1%nat, snd (get c2 (py "k") 200)).
Proof.
  eexists. split; [split; [reflexivity | simpl; lia]|].
  apply (cached_ai_call_memoizes (new_cache 10 300) _ (py "k") 0 1%nat 0 0);
    [reflexivity | simpl; lia].
Defined.

(** ** Keys: [_make_key] and [make_cache_key] *)

Lemma le_bytes_length n x : length (MD5.le_bytes n x) = n.
Proof. unfold MD5.le_bytes. rewrite length_map. apply length_seq. Qed.

Lemma le_bytes_range n x : Forall (fun b => 0 <= b < 256) (MD5.le_bytes n x).
Proof.
  unfold MD5.le_bytes. apply Forall_forall. intros b Hb.
  apply in_map_iff in Hb as [i [<- _]].
  change 255 with (Z.ones 8). rewrite Z.land_ones by lia.
  apply Z.mod_pos_bound. lia.
Qed.

Lemma digest_bytes m :
  length (MD5.digest m) = 16%nat /\ Forall (fun b => 0 <= b < 256) (MD5.digest m).
Proof.
  unfold MD5.digest. cbv zeta.
  destruct (fold_left _ _ _) as [[[a b] c] d].
  rewrite !length_app, !le_bytes_length. split; [reflexivity|].
  apply Forall_app; split; [apply le_bytes_range|].
  apply Forall_app; split; [apply le_bytes_range|].
  apply Forall_app; split; apply le_bytes_range.
Qed.

Lemma hex_digit_lower d : 0 <= d < 16 -> is_lower_hex (MD5.hex_digit d) = true.
Proof.
  intros Hd. unfold is_lower_hex, MD5.hex_digit.
  destruct (Z.ltb_spec d 10).
  - rewrite (proj2 (Z.leb_le 48 (48 + d))), (proj2 (Z.leb_le (48 + d) 57)) by lia.
    reflexivity.
  - rewrite (proj2 (Z.leb_le 97 (87 + d))), (proj2 (Z.leb_le (87 + d) 102)) by lia.
    apply orb_true_r.
Qed.

Lemma hexdigest_shape bs :
  Forall (fun b => 0 <= b < 256) bs ->
  length (MD5.hexdigest bs) = (2 * length bs)%nat /\
  forallb is_lower_hex (MD5.hexdigest bs) = true.
Proof.
  induction bs as [|b bs IH]; intros Hf; [split; reflexivity|].
  inversion Hf as [|? ? Hb Hf']; subst. destruct (IH Hf') as [IH1 IH2].
  unfold MD5.hexdigest in *. simpl flat_map. simpl length. split; [lia|].
  simpl forallb. rewrite IH2.
  rewrite !hex_digit_lower; [reflexivity| |].
  - change 15 with (Z.ones 4). rewrite Z.land_ones by lia.
    apply Z.mod_pos_bound. lia.
  - rewrite Z.shiftr_div_pow2 by lia. change (2 ^ 4) with 16.
    split; [apply Z.div_pos; lia|]. apply Z.div_lt_upper_bound; lia.
Qed.

Lemma encode_none s : encode s = None -> Exists (fun c => utf8_char c = None) s.
Proof.
  induction s as [|c s IH]; simpl; [discriminate|].
  destruct (utf8_char c) eqn:U; [|intros _; left; exact U].
  destruct (encode s); [discriminate|]. intros _. right. apply IH. reflexivity.
Qed.

(** X7. The key of [AIResponseCache._make_key] is the model name, a
    colon and 32 lowercase hex digits, whatever the prompt; the call
    raises only when the first 500 code points of the prompt hold one
    that UTF-8 cannot encode (a lone surrogate). *)
Theorem make_key_format (prompt model : pystr) :
  match make_key prompt model with
  | Some key =>
      exists h, key = model ++ py ":" ++ h /\ length h = 32%nat /\
                forallb is_lower_hex h = true
  | None => Exists (fun c => utf8_char c = None) (py_prefix 500 prompt)
  end.
Proof.
  unfold make_key. destruct (encode (py_prefix 500 prompt)) as [b|] eqn:E.
  - exists (md5_hexdigest b). split; [reflexivity|].
    destruct (digest_bytes b) as [Hl Hr].
    destruct (hexdigest_shape _ Hr) as [H1 H2]. unfold md5_hexdigest.
    rewrite H1, Hl. split; [reflexivity|exact H2].
  - apply encode_none. exact E.
Qed.

(** X8. [make_cache_key] joins its parts with ["|"] and writes keyword
    arguments as ["k=v"] without escaping, so different calls share one
    key: two positional strings and their ["|"]-joined concatenation,
    and a keyword argument and the positional string ["k=v"]. *)
Theorem make_cache_key_collisions (a b : pystr) (rest : list pystr)
  (kwargs : list (pystr * pystr)) :
  make_cache_key (a :: b :: rest) kwargs
  = make_cache_key ((a ++ py "|" ++ b) :: rest) kwargs /\
  make_cache_key [] [(a, b)] = make_cache_key [a ++ py "=" ++ b] [].
Proof.
  unfold make_cache_key, join. simpl. split.
  - rewrite <- !app_assoc. reflexivity.
  - rewrite app_nil_r. reflexivity.
Qed.

(** ** Database helpers on the pool *)

(** X9. On the fresh global pool, an empty batch returns at once without
    touching the pool, while a non-empty batch never returns: its
    [pool.acquire()] runs [initialize], which waits on its own [_lock]
    (the recursion bound of the model must reach 4 to see it). *)
Theorem mark_forwarded_batch_fresh_pool (n fuel : nat) (messages : list (Z * Z)) :
  mark_forwarded_batch fuel messages (DatabasePool.new_pool n) =
  match messages with
  | [] => DatabasePool.Done (DatabasePool.new_pool n)
  | _ =>
      if (fuel <? 4)%nat then DatabasePool.OutOfFuel
      else DatabasePool.Blocked (DatabasePool.mkPool n false true n n)
  end.
Proof.
  destruct messages as [|m ms]; [reflexivity|]. unfold mark_forwarded_batch.
  assert (C : DatabasePool.create_connections n
                (DatabasePool.with_lock true (DatabasePool.new_pool n))
              = DatabasePool.Done (DatabasePool.mkPool n false true n n)).
  { rewrite create_connections_spec; [reflexivity | simpl; lia]. }
  destruct fuel as [|[|[|[|f]]]]; [reflexivity|reflexivity| | |];
    cbn -[DatabasePool.create_connections]; rewrite C; reflexivity.
Qed.

(** X10. On a pool that is initialized and whose queue holds at most
    [pool_size] connections, a non-empty batch borrows a connection and
    puts it back, leaving the pool as it was; with no connection free
    the [wait_for] on the queue raises ([asyncio.TimeoutError]). *)
Theorem mark_forwarded_batch_ready_pool (fuel : nat) (messages : list (Z * Z))
  (p : DatabasePool.Pool) :
  (1 <= fuel)%nat -> DatabasePool.initialized p = true ->
  (DatabasePool.available p <= DatabasePool.pool_size p)%nat ->
  mark_forwarded_batch fuel messages p =
  match messages, DatabasePool.available p with
  | [], _ => DatabasePool.Done p
  | _, O => DatabasePool.Raised p
  | _, Datatypes.S _ => DatabasePool.Done p
  end.
Proof.
  intros Hf Hi Ha. destruct messages as [|m ms]; [reflexivity|].
  unfold mark_forwarded_batch. destruct fuel as [|f]; [lia|].
  destruct p as [ps ini lk conns avail]. simpl in Hi, Ha. subst ini.
  simpl. destruct avail as [|a]; [reflexivity|].
  unfold DatabasePool.put. simpl.
  destruct ((0 <? ps)%nat && (ps <=? a)%nat) eqn:E.
  - apply andb_true_iff in E as [_ E]. apply Nat.leb_le in E. lia.
  - reflexivity.
Qed.

Lemma mark_forwarded_batch_ready_pool_witness :
  ((1 <= 2)%nat /\
   DatabasePool.initialized (DatabasePool.mkPool 5 true false 5 3) = true /\
   (DatabasePool.available (DatabasePool.mkPool 5 true false 5 3)
    <= DatabasePool.pool_size (DatabasePool.mkPool 5 true false 5 3))%nat) /\
  mark_forwarded_batch 2 [(1, 10); (1, 11)] (DatabasePool.mkPool 5 true false 5 3)
  = DatabasePool.Done (DatabasePool.mkPool 5 true false 5 3).
Proof.
  split; [split; [lia|split; [reflexivity|simpl; lia]]|].
  apply (mark_forwarded_batch_ready_pool 2 [(1, 10); (1, 11)]
           (DatabasePool.mkPool 5 true false 5 3)); [lia|reflexivity|simpl; lia].
Defined.

(** ** [AppState] *)

Module AppStateFacts.
Import AppState.

Lemma ready_construct w a s : appstate_ready w a s -> construct w = (a, w).
Proof.
  intros (Hc & _ & f & Hf & Hi & _). unfold construct, new_. rewrite Hc.
  unfold init_. rewrite Hf, Hi. reflexivity.
Qed.

Lemma ready_get_state w a s :
  appstate_ready w a s ->
  fst (get_state w) = a /\ appstate_ready (snd (get_state w)) a s /\
  heap (snd (get_state w)) = heap w.
Proof.
  intros Hr. pose proof (ready_construct _ _ _ Hr) as Hc.
  destruct Hr as (Hci & [Hg|Hg] & Hf); unfold get_state; rewrite Hg.
  - rewrite Hc. simpl. split; [reflexivity|]. split; [|reflexivity].
    split; [exact Hci|]. split; [right; reflexivity|exact Hf].
  - simpl. split; [reflexivity|]. split; [|reflexivity].
    split; [exact Hci|]. split; [right; exact Hg|exact Hf].
Qed.

Lemma ready_increment w a s f p r su :
  appstate_ready w a s -> appstate_ready (increment_stats_global w f p r su) a (increment_stats s f p r su).
Proof.
  intros Hr. destruct (ready_get_state _ _ _ Hr) as (H1 & H2 & H3).
  unfold increment_stats_global. destruct (get_state w) as [a' w1]. simpl in *. subst a'.
  destruct H2 as (Hc & Hg & fl & Hf & Hi & Hs). rewrite Hf.
  split; [exact Hc|]. split; [exact Hg|].
  eexists. split; [simpl; rewrite Nat.eqb_refl; reflexivity|].
  simpl. rewrite Hs. split; [exact Hi|reflexivity].
Qed.

Lemma ready_get_stats w a s : appstate_ready w a s -> fst (get_stats w) = Some s.
Proof.
  intros Hr. destruct (ready_get_state _ _ _ Hr) as (H1 & H2 & H3).
  unfold get_stats. destruct (get_state w) as [a' w1]. simpl in *. subst a'.
  destruct Hr as (_ & _ & f & Hf & _ & Hs). rewrite H3, Hf. simpl. congruence.
Qed.

Lemma ready_run w a s cs :
  appstate_ready w a s -> appstate_ready (run_calls w cs) a (total_increments s cs).
Proof.
  revert w s. induction cs as [|c cs IH]; intros w s Hr; [exact Hr|].
  destruct c as [f p r su| |]; simpl.
  - apply IH. apply ready_increment. exact Hr.
  - rewrite (ready_construct _ _ _ Hr). apply IH. exact Hr.
  - apply IH. apply (ready_get_state _ _ _ Hr).
Qed.

Lemma ready_first_call c :
  exists a, appstate_ready (run_calls world0 [c]) a (total_increments stats0 [c]).
Proof.
  exists 0%nat. destruct c as [f p r su| |]; simpl.
  - split; [reflexivity|]. split; [right; reflexivity|].
    eexists. split; [reflexivity|]. split; reflexivity.
  - split; [reflexivity|]. split; [left; reflexivity|].
    eexists. split; [reflexivity|]. split; reflexivity.
  - split; [reflexivity|]. split; [right; reflexivity|].
    eexists. split; [reflexivity|]. split; reflexivity.
Qed.

Lemma ready_nonempty c cs :
  exists a, appstate_ready (run_calls world0 (c :: cs)) a (total_increments stats0 (c :: cs)).
Proof.
  destruct (ready_first_call c) as [a Ha]. exists a.
  change (c :: cs) with ([c] ++ cs).
  assert (E1 : forall w l1 l2, run_calls w (l1 ++ l2) = run_calls (run_calls w l1) l2).
  { intros w l1. revert w. induction l1 as [|[] l1 IH]; intros w l2; simpl; auto. }
  assert (E2 : forall s l1 l2, total_increments s (l1 ++ l2)
                 = total_increments (total_increments s l1) l2).
  { intros s l1. revert s. induction l1 as [|[] l1 IH]; intros s l2; simpl; auto. }
  rewrite E1, E2. apply ready_run. exact Ha.
Qed.

End AppStateFacts.

(** X11. [AppState] is a singleton whose state survives re-construction:
    after any sequence of [increment_stats], [AppState()] and
    [get_state()] calls from a fresh interpreter, [get_stats()] reports
    the sum of all increments; [AppState()] and [get_state()] name the
    same object, and once any call has run, [AppState()] changes
    nothing ([__init__] returns at once on [_initialized]). *)
Theorem appstate_singleton_keeps_counters (cs : list AppState.call) :
  fst (AppState.get_stats (AppState.run_calls AppState.world0 cs))
  = Some (AppState.total_increments AppState.stats0 cs) /\
  fst (AppState.construct (AppState.run_calls AppState.world0 cs))
  = fst (AppState.get_state (AppState.run_calls AppState.world0 cs)) /\
  (forall c, snd (AppState.construct (AppState.run_calls AppState.world0 (c :: cs)))
             = AppState.run_calls AppState.world0 (c :: cs)).
Proof.
  split; [|split].
  - destruct cs as [|c cs']; [reflexivity|].
    destruct (AppStateFacts.ready_nonempty c cs') as [a Ha].
    exact (AppStateFacts.ready_get_stats _ _ _ Ha).
  - destruct cs as [|c cs']; [reflexivity|].
    destruct (AppStateFacts.ready_nonempty c cs') as [a Ha].
    rewrite (AppStateFacts.ready_construct _ _ _ Ha).
    symmetry. exact (proj1 (AppStateFacts.ready_get_state _ _ _ Ha)).
  - intros c. destruct (AppStateFacts.ready_nonempty c cs) as [a Ha].
    rewrite (AppStateFacts.ready_construct _ _ _ Ha). reflexivity.
Qed.

(** X12. Monitoring runs at most one task: [start_monitoring] succeeds
    exactly when monitoring is off; a refused start leaves the state and
    the running task as they were; [stop_monitoring] hands back the task
    of the last successful start and turns monitoring off, after which a
    start succeeds again. *)
Theorem monitoring_single_task {T} (m : AppState.Monitoring T) (t1 t2 : T) :
  fst (AppState.start_monitoring m t1) = negb (AppState.monitoring_active m) /\
  (AppState.monitoring_active m = true -> snd (AppState.start_monitoring m t1) = m) /\
  let m0 := snd (AppState.stop_monitoring m) in
  let (ok1, m1) := AppState.start_monitoring m0 t1 in
  let (ok2, m2) := AppState.start_monitoring m1 t2 in
  ok1 = true /\ ok2 = false /\ m2 = m1 /\
  fst (AppState.stop_monitoring m2) = Some t1 /\
  AppState.monitoring_active (snd (AppState.stop_monitoring m2)) = false /\
  fst (AppState.start_monitoring (snd (AppState.stop_monitoring m2)) t2) = true.
Proof.
  unfold AppState.start_monitoring, AppState.stop_monitoring.
  destruct (AppState.monitoring_active m) eqn:E; simpl.
  - split; [reflexivity|]. split; [reflexivity|]. repeat split.
  - split; [reflexivity|]. split; [discriminate|]. repeat split.
Qed.

Section SettingsFacts.
Import AppState.

Lemma dict_get_map_other {A} (k k' : pystr) (v : A) (d : dict A) :
  key_eqb k k' = false ->
  dict_get k (map (fun p => if key_eqb k' (fst p) then (k', v) else p) d) = dict_get k d.
Proof.
  intros Hne. induction d as [|[k'' v''] d IH]; simpl; [reflexivity|].
  destruct (key_eqb k' k'') eqn:E1; simpl.
  - apply key_eqb_true in E1. subst k''. rewrite Hne. exact IH.
  - destruct (key_eqb k k''); [reflexivity|exact IH].
Qed.

Lemma dict_get_map_same {A} (k : pystr) (v : A) (d : dict A) :
  existsb (fun p => key_eqb k (fst p)) d = true ->
  dict_get k (map (fun p => if key_eqb k (fst p) then (k, v) else p) d) = Some v.
Proof.
  induction d as [|[k'' v''] d IH]; simpl; [discriminate|].
  destruct (key_eqb k k'') eqn:E1; simpl; intros Ex.
  - rewrite key_eqb_refl. reflexivity.
  - rewrite E1. apply IH. exact Ex.
Qed.

Lemma dict_get_app_last {A} (k k' : pystr) (v : A) (d : dict A) :
  dict_get k (d ++ [(k', v)]) =
  match dict_get k d with Some x => Some x | None => if key_eqb k k' then Some v else None end.
Proof.
  induction d as [|[k'' v''] d IH]; simpl; [reflexivity|].
  destruct (key_eqb k k''); [reflexivity|exact IH].
Qed.

Lemma dict_get_setitem {A} (k k' : pystr) (v : A) (d : dict A) :
  dict_get k (dict_setitem k' v d) = if key_eqb k k' then Some v else dict_get k d.
Proof.
  unfold dict_setitem. destruct (key_eqb k k') eqn:E.
  - apply key_eqb_true in E. subst k'.
    destruct (existsb (fun p => key_eqb k (fst p)) d) eqn:Ex.
    + apply dict_get_map_same. exact Ex.
    + rewrite dict_get_app_last, key_eqb_refl.
      destruct (dict_get k d) eqn:G; [|reflexivity]. exfalso.
      clear -G Ex. induction d as [|[k'' v''] d IH]; simpl in *; [discriminate|].
      destruct (key_eqb k k''); [discriminate|]. apply IH; assumption.
  - destruct (existsb (fun p => key_eqb k' (fst p)) d).
    + apply dict_get_map_other. exact E.
    + rewrite dict_get_app_last, E. destruct (dict_get k d); reflexivity.
Qed.

Lemma dict_get_none_notin {A} (k : pystr) (d : dict A) :
  ~ In k (map fst d) -> dict_get k d = None.
Proof.
  induction d as [|[k'' v''] d IH]; simpl; [reflexivity|]. intros Hn.
  destruct (key_eqb k k'') eqn:E.
  - apply key_eqb_true in E. subst. tauto.
  - apply IH. tauto.
Qed.

Lemma update_settings_get (s updates : dict pyval) (key : pystr) :
  NoDup (map fst updates) ->
  dict_get key (update_settings s updates) =
  match dict_get key updates with Some v => Some v | None => dict_get key s end.
Proof.
  unfold update_settings. revert s.
  induction updates as [|[k v] updates IH]; intros s Hnd; simpl; [reflexivity|].
  inversion Hnd as [|? ? Hx Hnd']; subst.
  rewrite (IH _ Hnd'), dict_get_setitem.
  destruct (key_eqb key k) eqn:E; [|reflexivity].
  apply key_eqb_true in E. subst k. rewrite (dict_get_none_notin _ _ Hx). reflexivity.
Qed.

End SettingsFacts.

(** X13. [update_settings(updates)] ([dict.update]): afterwards
    [get_setting(key, default)] returns the update's value for a key the
    update holds, and the earlier setting (or [default]) for any other
    key. *)
Theorem update_settings_get_setting (s updates : AppState.dict AppState.pyval)
  (key : pystr) (default : AppState.pyval) :
  NoDup (map fst updates) ->
  AppState.get_setting (AppState.update_settings s updates) key default =
  match AppState.dict_get key updates with
  | Some v => v
  | None => AppState.get_setting s key default
  end.
Proof.
  intros Hnd. unfold AppState.get_setting. rewrite (update_settings_get _ _ _ Hnd).
  destruct (AppState.dict_get key updates); reflexivity.
Qed.

Lemma update_settings_get_setting_witness :
  NoDup (map fst [(py "days_back", AppState.VInt 14); (py "channels", AppState.VList [])]) /\
  AppState.get_setting
    (AppState.update_settings AppState.default_settings
       [(py "days_back", AppState.VInt 14); (py "channels", AppState.VList [])])
    (py "model_type") (AppState.VStr [])
  = AppState.VStr (py "mistral").
Proof.
  assert (H : NoDup (map fst [(py "days_back", AppState.VInt 14);
                               (py "channels", AppState.VList [])])).
  { simpl. constructor; [intros [H|[]]; discriminate H|constructor; [tauto|constructor]]. }
  split; [exact H|].
  rewrite (update_settings_get_setting _ _ (py "model_type") (AppState.VStr []) H).
  reflexivity.
Defined.

Section WsFacts.
Import AppState.

Context {C : Type} (dec : forall x y : C, {x = y} + {x <> y}).

Lemma mem_in c l : mem dec c l = true <-> In c l.
Proof.
  unfold mem. rewrite existsb_exists. split.
  - intros [x [Hx Hc]]. destruct (dec c x); [subst; exact Hx|discriminate].
  - intros H. exists c. split; [exact H|]. destruct (dec c c); [reflexivity|congruence].
Qed.

Lemma filter_not_c_notin c l : ~ In c l -> filter (not_c dec c) l = l.
Proof.
  induction l as [|x l IH]; intros Hn; [reflexivity|].
  cbn [filter]. replace (not_c dec c x) with (if dec c x then false else true) by reflexivity.
  destruct (dec c x); [subst; simpl in Hn; tauto|]. f_equal. apply IH. simpl in Hn. tauto.
Qed.

Lemma remove_first_filter c l :
  NoDup l -> remove_first dec c l = filter (not_c dec c) l.
Proof.
  induction l as [|x l IH]; intros Hnd; [reflexivity|].
  inversion Hnd as [|? ? Hx Hnd']; subst.
  cbn [remove_first filter].
  replace (not_c dec c x) with (if dec c x then false else true) by reflexivity.
  destruct (dec c x) as [<-|Hne].
  - symmetry. apply filter_not_c_notin. exact Hx.
  - f_equal. apply IH. exact Hnd'.
Qed.

(** One round of the loop of [cleanup_ws_clients]. *)
Lemma cleanup_step c l :
  NoDup l -> (if mem dec c l then remove_first dec c l else l) = filter (not_c dec c) l.
Proof.
  intros Hnd. destruct (mem dec c l) eqn:M.
  - apply remove_first_filter. exact Hnd.
  - symmetry. apply filter_not_c_notin. intros H. apply mem_in in H. congruence.
Qed.

End WsFacts.

(** X14. The WebSocket client list never holds a client twice:
    [add_ws_client] and [remove_ws_client] keep it free of duplicates;
    adding puts the client in the list and adding it again changes
    nothing; removing takes exactly that client out and keeps every
    other one. *)
Theorem ws_clients_add_remove {C} (dec : forall x y : C, {x = y} + {x <> y})
  (l : list C) (c : C) :
  NoDup l ->
  NoDup (AppState.add_ws_client dec l c) /\ In c (AppState.add_ws_client dec l c) /\
  AppState.add_ws_client dec (AppState.add_ws_client dec l c) c
  = AppState.add_ws_client dec l c /\
  NoDup (AppState.remove_ws_client dec l c) /\
  ~ In c (AppState.remove_ws_client dec l c) /\
  (forall x, x <> c -> In x (AppState.remove_ws_client dec l c) <-> In x l).
Proof.
  intros Hnd.
  assert (Hadd : NoDup (AppState.add_ws_client dec l c) /\ In c (AppState.add_ws_client dec l c)).
  { unfold AppState.add_ws_client. destruct (AppState.mem dec c l) eqn:M.
    - split; [exact Hnd|]. apply (mem_in dec). exact M.
    - split.
      + apply NoDup_app; [exact Hnd|constructor; [tauto|constructor]|].
        intros x Hx [Hy|[]]. subst x. apply (mem_in dec) in Hx. congruence.
      + apply in_or_app. right. left. reflexivity. }
  destruct Hadd as [Ha1 Ha2]. split; [exact Ha1|]. split; [exact Ha2|]. split.
  { unfold AppState.add_ws_client at 1.
    rewrite (proj2 (mem_in dec c (AppState.add_ws_client dec l c)) Ha2). reflexivity. }
  unfold AppState.remove_ws_client. rewrite (cleanup_step dec c l Hnd).
  split; [apply NoDup_filter, Hnd|]. split.
  - intros H. apply filter_In in H as [_ H]. unfold not_c in H.
    destruct (dec c c); [discriminate|congruence].
  - intros x Hx. rewrite filter_In. unfold not_c.
    destruct (dec c x); [congruence|]. tauto.
Qed.

Lemma ws_clients_add_remove_witness :
  NoDup [1; 2] /\
  (NoDup (AppState.add_ws_client Z.eq_dec [1; 2] 3) /\
   In 3 (AppState.add_ws_client Z.eq_dec [1; 2] 3) /\
   AppState.add_ws_client Z.eq_dec (AppState.add_ws_client Z.eq_dec [1; 2] 3) 3
   = AppState.add_ws_client Z.eq_dec [1; 2] 3 /\
   NoDup (AppState.remove_ws_client Z.eq_dec [1; 2] 3) /\
   ~ In 3 (AppState.remove_ws_client Z.eq_dec [1; 2] 3) /\
   (forall x, x <> 3 -> In x (AppState.remove_ws_client Z.eq_dec [1; 2] 3) <-> In x [1; 2])).
Proof.
  assert (H : NoDup [1; 2]).
  { constructor; [intros [H|[]]; discriminate H|constructor; [tauto|constructor]]. }
  split; [exact H|]. exact (ws_clients_add_remove Z.eq_dec [1; 2] 3 H).
Defined.

(** X15. [cleanup_ws_clients(dead)] on a duplicate-free client list
    removes exactly the clients listed in [dead] and keeps the others in
    their order, whatever the order or repetitions of [dead]. *)
Theorem cleanup_ws_clients_filter {C} (dec : forall x y : C, {x = y} + {x <> y})
  (l dead : list C) :
  NoDup l ->
  AppState.cleanup_ws_clients dec l dead
  = filter (fun x => negb (AppState.mem dec x dead)) l.
Proof.
  unfold AppState.cleanup_ws_clients. revert l.
  induction dead as [|c dead IH]; intros l Hnd; simpl.
  - symmetry. apply filter_true.
  - rewrite (cleanup_step dec c l Hnd), IH by (apply NoDup_filter; exact Hnd).
    rewrite filter_filter_and. apply filter_ext. intros x. unfold not_c, AppState.mem.
    simpl. destruct (dec c x), (dec x c); subst; simpl; try congruence; reflexivity.
Qed.

Lemma cleanup_ws_clients_filter_witness :
  NoDup [1; 2; 3; 4] /\
  AppState.cleanup_ws_clients Z.eq_dec [1; 2; 3; 4] [3; 9; 1; 3]
  = filter (fun x => negb (AppState.mem Z.eq_dec x [3; 9; 1; 3])) [1; 2; 3; 4].
Proof.
  assert (H : NoDup [1; 2; 3; 4]).
  { repeat constructor; simpl; intros H; repeat destruct H as [H|H]; try discriminate H; exact H. }
  split; [exact H|]. exact (cleanup_ws_clients_filter Z.eq_dec _ [3; 9; 1; 3] H).
Defined.

(** ** The improvement-task registry *)

Section RegistryFacts.
Import TaskRegistry TaskRegistryMore.

Lemma get_update_task (r : registry) (vid vid' status : string) :
  get_improvement_task (update_improvement_task r vid status) vid' =
  if String.eqb vid' vid then option_map (fun _ => status) (get_improvement_task r vid')
  else get_improvement_task r vid'.
Proof.
  unfold update_improvement_task.
  induction r as [|[v st] r IH]; simpl; [destruct (String.eqb vid' vid); reflexivity|].
  destruct (String.eqb vid v) eqn:E1; simpl.
  - apply String.eqb_eq in E1. subst v.
    destruct (String.eqb vid' vid) eqn:E2; [reflexivity|]. exact IH.
  - destruct (String.eqb vid' v) eqn:E3.
    + apply String.eqb_eq in E3. subst v. rewrite String.eqb_sym, E1. reflexivity.
    + rewrite IH. destruct (String.eqb vid' vid); reflexivity.
Qed.

Lemma get_task_exists (r : registry) (vid : string) :
  existsb (fun p => String.eqb vid (fst p)) r = true ->
  exists st, get_improvement_task r vid = Some st.
Proof.
  induction r as [|[v st] r IH]; simpl; [discriminate|].
  destruct (String.eqb vid v); [eexists; reflexivity|]. exact IH.
Qed.

Lemma get_task_absent (r : registry) (vid : string) :
  existsb (fun p => String.eqb vid (fst p)) r = false ->
  get_improvement_task r vid = None.
Proof.
  induction r as [|[v st] r IH]; simpl; [reflexivity|].
  destruct (String.eqb vid v); [discriminate|]. exact IH.
Qed.

Lemma get_task_app (r : registry) (vid vid' : string) (st : string) :
  get_improvement_task (r ++ [(vid, st)]) vid' =
  match get_improvement_task r vid' with
  | Some x => Some x
  | None => if String.eqb vid' vid then Some st else None
  end.
Proof.
  induction r as [|[v s] r IH]; simpl; [reflexivity|].
  destruct (String.eqb vid' v); [reflexivity|exact IH].
Qed.

Lemma fold_filter_ids (ks : list string) (r : registry) :
  fold_left (fun r vid => filter (fun p => negb (String.eqb vid (fst p))) r) ks r =
  filter (fun p => negb (existsb (fun vid => String.eqb vid (fst p)) ks)) r.
Proof.
  revert r. induction ks as [|k ks IH]; intros r; simpl.
  - symmetry. apply filter_true.
  - rewrite IH, filter_filter_and. apply filter_ext. intros [k' st]. simpl.
    destruct (String.eqb k k'); reflexivity.
Qed.

Lemma nodup_map_fst_filter {A B} (f : A * B -> bool) (l : list (A * B)) :
  NoDup (map fst l) -> NoDup (map fst (filter f l)).
Proof.
  induction l as [|x l IH]; simpl; intros Hnd; [constructor|].
  inversion Hnd as [|? ? Hx Hnd']; subst.
  destruct (f x); simpl; [|apply IH; exact Hnd'].
  constructor; [|apply IH; exact Hnd'].
  intros H. apply Hx. apply in_map_iff in H as [y [Hy Hin]].
  apply filter_In in Hin as [Hin _]. rewrite <- Hy. apply in_map. exact Hin.
Qed.

Lemma nodup_fst_eq_gen {A B} (l : list (A * B)) p q :
  NoDup (map fst l) -> In p l -> In q l -> fst p = fst q -> p = q.
Proof.
  induction l as [|x l IH]; simpl; [tauto|]. intros Hnd Hp Hq Hk.
  inversion Hnd as [|? ? Hx Hnd']; subst.
  destruct Hp as [Hp|Hp], Hq as [Hq|Hq]; subst; auto.
  - exfalso. apply Hx. rewrite Hk. apply in_map. exact Hq.
  - exfalso. apply Hx. rewrite <- Hk. apply in_map. exact Hp.
Qed.

Lemma filter_firstn_ids (F : registry) (m : nat) :
  NoDup (map fst F) ->
  filter (fun p => negb (existsb (fun vid => String.eqb vid (fst p))
                                 (firstn m (map fst F)))) F
  = skipn m F.
Proof.
  revert m. induction F as [|[a b] F IH]; intros m Hnd; [destruct m; reflexivity|].
  inversion Hnd as [|? ? Hx Hnd']; subst.
  destruct m as [|m]; [apply filter_true|].
  simpl. rewrite String.eqb_refl. simpl. rewrite <- (IH m Hnd').
  apply filter_ext_in. intros [a' b'] Hp. simpl.
  destruct (String.eqb a a') eqn:E; [|reflexivity].
  apply String.eqb_eq in E. subst a'. exfalso. apply Hx.
  change a with (fst (a, b')). apply in_map. exact Hp.
Qed.

End RegistryFacts.

(** X16. The registry behaves as a dict keyed by vacancy id:
    [update_improvement_task] sets the status of a registered id and does
    nothing for an unknown one; [add_improvement_task] registers the id as
    ["running"], keeping its position when it was already there and
    appending it otherwise; other ids are not affected. *)
Theorem improvement_task_add_update (r : TaskRegistry.registry)
  (vid vid' status : string) :
  TaskRegistryMore.get_improvement_task
    (TaskRegistry.update_improvement_task r vid status) vid'
  = (if String.eqb vid' vid
     then option_map (fun _ => status) (TaskRegistryMore.get_improvement_task r vid')
     else TaskRegistryMore.get_improvement_task r vid') /\
  TaskRegistryMore.get_improvement_task (TaskRegistry.add_improvement_task r vid) vid'
  = (if String.eqb vid' vid then Some "running"%string
     else TaskRegistryMore.get_improvement_task r vid') /\
  map fst (TaskRegistry.add_improvement_task r vid)
  = (if existsb (fun p => String.eqb vid (fst p)) r then map fst r
     else map fst r ++ [vid]).
Proof.
  split; [apply get_update_task|].
  unfold TaskRegistry.add_improvement_task.
  destruct (existsb (fun p => String.eqb vid (fst p)) r) eqn:Ex; split.
  - change (map _ r) with (TaskRegistry.update_improvement_task r vid "running").
    rewrite get_update_task. destruct (String.eqb vid' vid) eqn:E; [|reflexivity].
    apply String.eqb_eq in E. subst vid'.
    destruct (get_task_exists r vid Ex) as [st ->]. reflexivity.
  - rewrite map_map. apply map_ext_in. intros [v st] _. simpl.
    destruct (String.eqb vid v) eqn:E; [|reflexivity].
    apply String.eqb_eq in E. exact E.
  - rewrite get_task_app. destruct (String.eqb vid' vid) eqn:E.
    + apply String.eqb_eq in E. subst vid'. rewrite (get_task_absent r vid Ex). reflexivity.
    + destruct (TaskRegistryMore.get_improvement_task r vid'); reflexivity.
  - rewrite map_app. reflexivity.
Qed.

(** X17. [cleanup_improvement_tasks(max_completed)] with
    [max_completed >= 1] (ids unique, as in the dict): it only deletes
    entries, keeps every entry that is not finished, and of the finished
    ones ([status] ["completed"] or ["error"]) keeps exactly the
    [max_completed] most recently inserted, in order. *)
Theorem cleanup_improvement_tasks_keeps_newest (r : TaskRegistry.registry) (N : Z) :
  1 <= N -> NoDup (map fst r) ->
  let fin := fun p : string * string => TaskRegistry.is_finished (snd p) in
  let r' := TaskRegistry.cleanup_improvement_tasks r N in
  (exists keep, r' = filter keep r) /\
  filter (fun p => negb (fin p)) r' = filter (fun p => negb (fin p)) r /\
  filter fin r' = skipn (length (filter fin r) - Z.to_nat N) (filter fin r).
Proof.
  intros HN Hnd fin r'. subst r'. unfold TaskRegistry.cleanup_improvement_tasks.
  cbv zeta. fold fin.
  destruct (Z.gtb_spec (Z.of_nat (length (map fst (filter fin r)))) N) as [Hgt|Hle].
  - rewrite length_map in *. unfold TaskRegistry.py_slice_to.
    rewrite (proj2 (Z.ltb_lt (- N) 0)) by lia. rewrite length_map.
    replace (Z.to_nat (Z.max 0 (Z.of_nat (length (filter fin r)) + - N)))
      with (length (filter fin r) - Z.to_nat N)%nat by lia.
    rewrite fold_filter_ids.
    set (m := (length (filter fin r) - Z.to_nat N)%nat).
    set (P := fun p : string * string =>
                negb (existsb (fun vid => String.eqb vid (fst p))
                        (firstn m (map fst (filter fin r))))).
    split; [exists P; reflexivity|]. split.
    + rewrite filter_filter_and. apply filter_ext_in. intros p Hp.
      destruct (fin p) eqn:Fp; simpl; [apply andb_false_r|].
      rewrite andb_true_r. unfold P.
      destruct (existsb _ _) eqn:Ex; [|reflexivity]. exfalso.
      apply existsb_exists in Ex as [vid [Hv Hvp]]. apply String.eqb_eq in Hvp.
      assert (Hv' : In vid (map fst (filter fin r))).
      { rewrite <- (firstn_skipn m (map fst (filter fin r))).
        apply in_or_app. left. exact Hv. }
      apply in_map_iff in Hv' as [q [Hq Hqin]]. apply filter_In in Hqin as [Hqr Hqf].
      assert (q = p) by (apply (nodup_fst_eq_gen r); auto; congruence).
      subst q. congruence.
    + rewrite <- (filter_firstn_ids (filter fin r) m)
        by (apply nodup_map_fst_filter; exact Hnd).
      rewrite !filter_filter_and. apply filter_ext. intros p. apply andb_comm.
  - rewrite length_map in Hle.
    replace (length (filter fin r) - Z.to_nat N)%nat with 0%nat by lia.
    split; [exists (fun _ => true); symmetry; apply filter_true|].
    split; reflexivity.
Qed.

Lemma cleanup_improvement_tasks_keeps_newest_witness :
  let r := [("a", "completed"); ("b", "running"); ("c", "error");
            ("d", "completed"); ("e", "running")]%string in
  (1 <= 2 /\ NoDup (map fst r)) /\
  TaskRegistry.cleanup_improvement_tasks r 2
  = [("b", "running"); ("c", "error"); ("d", "completed"); ("e", "running")]%string /\
  (let fin := fun p : string * string => TaskRegistry.is_finished (snd p) in
   let r' := TaskRegistry.cleanup_improvement_tasks r 2 in
   (exists keep, r' = filter keep r) /\
   filter (fun p => negb (fin p)) r' = filter (fun p => negb (fin p)) r /\
   filter fin r' = skipn (length (filter fin r) - Z.to_nat 2) (filter fin r)).
Proof.
  intros r.
  assert (H : NoDup (map fst r)).
  { simpl. repeat constructor; simpl; intros H;
      repeat destruct H as [H|H]; try discriminate H; exact H. }
  split; [split; [lia|exact H]|]. split; [reflexivity|].
  exact (cleanup_improvement_tasks_keeps_newest r 2 ltac:(lia) H).
Defined.

(** ** [AIResponseCache] TTLs *)

(** X18. A stored recruiter analysis is served for
    [TTL_RECRUITER_ANALYSIS] (1800 s) after it was stored and no longer:
    [get_recruiter_analysis] with the same texts and model at [now + dt]
    returns the result exactly when [dt <= 1800]. *)
Theorem recruiter_analysis_ttl_window {V} (c c' : LRUCache V)
  (vacancy_text resume_text model : pystr) (result : V) (now dt : Z) :
  set_recruiter_analysis c vacancy_text resume_text model result now = Some c' ->
  option_map fst (get_recruiter_analysis c' vacancy_text resume_text model (now + dt))
  = Some (if dt <=? TTL_RECRUITER_ANALYSIS then Some result else None).
Proof.
  unfold set_recruiter_analysis, get_recruiter_analysis.
  destruct (recruiter_key vacancy_text resume_text model) as [key|]; [|discriminate].
  intros H. pose proof (set_entry _ _ _ _ _ _ H) as G. simpl.
  rewrite (get_entry_window _ _ _ _ G). simpl.
  replace (now + dt - now) with dt by lia. reflexivity.
Qed.

Lemma recruiter_analysis_ttl_window_witness :
  exists c',
    set_recruiter_analysis (new_ai_cache 200) (py "Go developer") (py "5 years Go")
      (py "gpt") 1%nat 1000 = Some c' /\
    option_map fst (get_recruiter_analysis c' (py "Go developer") (py "5 years Go")
                      (py "gpt") (1000 + 1801))
    = Some (if 1801 <=? TTL_RECRUITER_ANALYSIS then Some 1%nat else None).
Proof.
  eexists. split; [reflexivity|].
  apply (recruiter_analysis_ttl_window (new_ai_cache 200)). reflexivity.
Defined.

(** X19. A stored vacancy analysis is served for [TTL_VACANCY_ANALYSIS]
    (3600 s) after it was stored and no longer: [get_vacancy_analysis]
    with the same text and model at [now + dt] returns the result
    exactly when [dt <= 3600]. *)
Theorem vacancy_analysis_ttl_window {V} (c c' : LRUCache V)
  (vacancy_text model : pystr) (result : V) (now dt : Z) :
  set_vacancy_analysis c vacancy_text model result now = Some c' ->
  option_map fst (get_vacancy_analysis c' vacancy_text model (now + dt))
  = Some (if dt <=? TTL_VACANCY_ANALYSIS then Some result else None).
Proof.
  unfold set_vacancy_analysis, get_vacancy_analysis.
  destruct (make_key vacancy_text model) as [key|]; [|discriminate].
  intros H. pose proof (set_entry _ _ _ _ _ _ H) as G. simpl.
  rewrite (get_entry_window _ _ _ _ G). simpl.
  replace (now + dt - now) with dt by lia. reflexivity.
Qed.

Lemma vacancy_analysis_ttl_window_witness :
  exists c',
    set_vacancy_analysis (new_ai_cache 200) (py "Go developer") (py "gpt") 1%nat 1000
    = Some c' /\
    option_map fst (get_vacancy_analysis c' (py "Go developer") (py "gpt") (1000 + 3599))
    = Some (if 3599 <=? TTL_VACANCY_ANALYSIS then Some 1%nat else None).
Proof.
  eexists. split; [reflexivity|].
  apply (vacancy_analysis_ttl_window (new_ai_cache 200)). reflexivity.
Defined.

(** ** [sorted(kwargs.items())] *)

Lemma str_ltb_irrefl a : str_ltb a a = false.
Proof. induction a as [|x a IH]; simpl; [reflexivity|]. rewrite Z.ltb_irrefl. exact IH. Qed.

Lemma str_ltb_trans a b c :
  str_ltb a b = true -> str_ltb b c = true -> str_ltb a c = true.
Proof.
  revert b c. induction a as [|x a IH]; intros [|y b] [|z c]; simpl; try discriminate; auto.
  destruct (Z.ltb_spec x y), (Z.ltb_spec y x), (Z.ltb_spec y z), (Z.ltb_spec z y),
           (Z.ltb_spec x z), (Z.ltb_spec z x);
    try discriminate; try lia; try (intros; reflexivity); apply IH.
Qed.

Lemma str_ltb_total a b : a <> b -> str_ltb a b = true \/ str_ltb b a = true.
Proof.
  revert b. induction a as [|x a IH]; intros [|y b] Hne; simpl; auto.
  destruct (Z.ltb_spec x y), (Z.ltb_spec y x); auto.
  assert (x = y) by lia. subst y. apply IH. congruence.
Qed.

Lemma item_ltb_keys p q : fst p <> fst q -> item_ltb p q = str_ltb (fst p) (fst q).
Proof.
  intros Hne. unfold item_ltb. destruct (key_eqb (fst p) (fst q)) eqn:E.
  - apply key_eqb_true in E. contradiction.
  - rewrite orb_false_r. reflexivity.
Qed.

Lemma insert_item_perm p l : Permutation (insert_item p l) (p :: l).
Proof.
  induction l as [|q l IH]; simpl; [reflexivity|].
  destruct (item_ltb q p); [|reflexivity].
  etransitivity; [apply perm_skip, IH|apply perm_swap].
Qed.

Lemma sort_items_perm l : Permutation (sort_items l) l.
Proof.
  induction l as [|p l IH]; simpl; [reflexivity|].
  etransitivity; [apply insert_item_perm|apply perm_skip, IH].
Qed.

(** Three distinct keys compared by [str_ltb] cannot form a cycle. *)
Ltac str_cycle :=
  match goal with
  | H1 : str_ltb ?x ?y = true, H2 : str_ltb ?y ?z = true,
    H3 : str_ltb ?z ?x = true |- _ =>
      let C := fresh in
      pose proof (str_ltb_trans _ _ _ (str_ltb_trans _ _ _ H1 H2) H3) as C;
      rewrite str_ltb_irrefl in C; discriminate C
  end.

(** One step of evaluating [insert_item] on items with distinct keys. *)
Ltac ins_step :=
  first
    [ progress cbn [insert_item]
    | match goal with
      | |- context [item_ltb ?x ?y] => rewrite (item_ltb_keys x y) by congruence
      end
    | match goal with
      | H : str_ltb ?u ?v = ?bv |- context [str_ltb ?u ?v] => rewrite H
      end ].

Lemma insert_item_swap a b l :
  NoDup (map fst (a :: b :: l)) ->
  insert_item a (insert_item b l) = insert_item b (insert_item a l).
Proof.
  induction l as [|q l IH]; intros Hnd.
  - simpl in Hnd. inversion Hnd as [|? ? Ha Hnd']; subst.
    assert (fst a <> fst b) as Hab by (intros E; apply Ha; left; congruence).
    simpl. rewrite !item_ltb_keys by congruence.
    destruct (str_ltb_total _ _ Hab) as [H|H].
    + assert (str_ltb (fst b) (fst a) = false) as H'.
      { destruct (str_ltb (fst b) (fst a)) eqn:E; [|reflexivity].
        pose proof (str_ltb_trans _ _ _ H E). rewrite str_ltb_irrefl in *. discriminate. }
      rewrite H, H'. reflexivity.
    + assert (str_ltb (fst a) (fst b) = false) as H'.
      { destruct (str_ltb (fst a) (fst b)) eqn:E; [|reflexivity].
        pose proof (str_ltb_trans _ _ _ H E). rewrite str_ltb_irrefl in *. discriminate. }
      rewrite H, H'. reflexivity.
  - simpl in Hnd.
    inversion Hnd as [|? ? Ha Hnd1]; subst. inversion Hnd1 as [|? ? Hb Hnd2]; subst.
    inversion Hnd2 as [|? ? Hq Hnd3]; subst.
    assert (fst a <> fst b) as Hab by (intros E; apply Ha; left; congruence).
    assert (fst a <> fst q) as Haq by (intros E; apply Ha; right; left; congruence).
    assert (fst b <> fst q) as Hbq by (intros E; apply Hb; left; congruence).
    assert (IH' : insert_item a (insert_item b l) = insert_item b (insert_item a l)).
    { apply IH. simpl. constructor; [intros H; apply Ha; simpl in H |- *; tauto|].
      constructor; [intros H; apply Hb; simpl; tauto|exact Hnd3]. }
    assert (flip : forall x y : pystr * pystr, fst x <> fst y ->
              str_ltb (fst y) (fst x) = negb (str_ltb (fst x) (fst y))).
    { intros x y Hxy. destruct (str_ltb (fst x) (fst y)) eqn:E; simpl.
      - destruct (str_ltb (fst y) (fst x)) eqn:E'; [|reflexivity].
        pose proof (str_ltb_trans _ _ _ E E') as C. rewrite str_ltb_irrefl in C.
        discriminate.
      - destruct (str_ltb_total _ _ Hxy) as [H|H]; congruence. }
    pose proof (flip a b Hab) as Eba. pose proof (flip a q Haq) as Eqa.
    pose proof (flip b q Hbq) as Eqb.
    destruct (str_ltb (fst a) (fst b)) eqn:Eab, (str_ltb (fst a) (fst q)) eqn:Eaq,
             (str_ltb (fst b) (fst q)) eqn:Ebq; simpl in Eba, Eqa, Eqb;
      try str_cycle; repeat ins_step; try reflexivity; rewrite IH'; reflexivity.
Qed.

Lemma sort_items_perm_eq l l' :
  NoDup (map fst l) -> Permutation l l' -> sort_items l = sort_items l'.
Proof.
  intros Hnd HP. induction HP as [|x l l' HP IH|y x l|l l' l'' HP1 IH1 HP2 IH2].
  - reflexivity.
  - simpl in Hnd |- *. inversion Hnd; subst. rewrite IH by assumption. reflexivity.
  - simpl. apply insert_item_swap.
    apply (Permutation_NoDup (l := map fst (x :: y :: l))); [|exact Hnd].
    apply Permutation_map. simpl. apply perm_skip, perm_skip.
    symmetry. apply sort_items_perm.
  - rewrite IH1 by exact Hnd. apply IH2.
    apply (Permutation_NoDup (l := map fst l)); [apply Permutation_map, HP1|exact Hnd].
Qed.

(** X20. [make_cache_key] does not depend on the order in which the
    keyword arguments are passed: it sorts them, and their names are
    unique. *)
Theorem make_cache_key_kwargs_order (args : list pystr)
  (kwargs kwargs' : list (pystr * pystr)) :
  NoDup (map fst kwargs) -> Permutation kwargs kwargs' ->
  make_cache_key args kwargs = make_cache_key args kwargs'.
Proof.
  intros Hnd HP. unfold make_cache_key. rewrite (sort_items_perm_eq _ _ Hnd HP).
  reflexivity.
Qed.

Lemma make_cache_key_kwargs_order_witness :
  (NoDup (map fst [(py "model", py "gpt"); (py "days", py "7")]) /\
   Permutation [(py "model", py "gpt"); (py "days", py "7")]
               [(py "days", py "7"); (py "model", py "gpt")]) /\
  make_cache_key [py "search"] [(py "model", py "gpt"); (py "days", py "7")]
  = make_cache_key [py "search"] [(py "days", py "7"); (py "model", py "gpt")].
Proof.
  assert (H1 : NoDup (map fst [(py "model", py "gpt"); (py "days", py "7")])).
  { simpl. constructor; [intros [H|[]]; discriminate H|constructor; [tauto|constructor]]. }
  assert (H2 : Permutation [(py "model", py "gpt"); (py "days", py "7")]
                           [(py "days", py "7"); (py "model", py "gpt")])
    by apply perm_swap.
  split; [split; assumption|].
  exact (make_cache_key_kwargs_order [py "search"] _ _ H1 H2).
Defined.

Lemma monitoring_single_task_witness :
  let m := AppState.mkMonitoring true (Some 1%nat) in
  fst (AppState.start_monitoring m 2%nat) = negb (AppState.monitoring_active m) /\
  (AppState.monitoring_active m = true -> snd (AppState.start_monitoring m 2%nat) = m) /\
  let m0 := snd (AppState.stop_monitoring m) in
  let (ok1, m1) := AppState.start_monitoring m0 2%nat in
  let (ok2, m2) := AppState.start_monitoring m1 3%nat in
  ok1 = true /\ ok2 = false /\ m2 = m1 /\
  fst (AppState.stop_monitoring m2) = Some 2%nat /\
  AppState.monitoring_active (snd (AppState.stop_monitoring m2)) = false /\
  fst (AppState.start_monitoring (snd (AppState.stop_monitoring m2)) 3%nat) = true.
Proof. exact (monitoring_single_task (AppState.mkMonitoring true (Some 1%nat)) 2%nat 3%nat). Defined.
